(** * Client-side SRP-6a: the modular-arithmetic kernel, the codec and the
      two-step handshake of [SecureRemotePassword], embedded from the
      TypeScript sources.

    JSBI big integers are [Z]; [BI.divide] and [BI.remainder] truncate
    towards zero, so they are [Z.quot] and [Z.rem].  A function that can
    throw, or recurse without end, returns an [outcome]. *)

From Stdlib Require Import ZArith Znumtheory Zpow_facts Lia Bool List Ascii String.
From Stdlib.Strings Require Import Byte.
From Stdlib Require Import HexadecimalString HexadecimalZ.
From Equations Require Import Equations.
From stdpp Require Import list.
Import ListNotations.

Local Open Scope Z_scope.

(** ** Outcomes of a call *)

Inductive exn : Type :=
| RangeError
| SyntaxError.

Inductive outcome (A : Type) : Type :=
| Ret (a : A)
| Thrown (e : exn)
| OutOfFuel.

Arguments Ret {A} a.
Arguments Thrown {A} e.
Arguments OutOfFuel {A}.

Definition bind {A B : Type} (m : outcome A) (k : A -> outcome B) : outcome B :=
  match m with
  | Ret a => k a
  | Thrown e => Thrown e
  | OutOfFuel => OutOfFuel
  end.

Notation "'let*' x ':=' m 'in' k" := (bind m (fun x => k))
  (at level 10, x name, m at level 100, k at level 200).

(** ** ModularArithmetic.ts *)

Module ModularArithmetic.

Definition ZERO : Z := 0.
Definition ONE : Z := 1.
Definition TWO : Z := 2.

Definition abs (x : Z) : Z :=
  if x >=? ZERO then x else - x.

Record Egcd : Type := mkEgcd { egcd_g : Z; egcd_x : Z; egcd_y : Z }.

(** The [while (a != 0)] loop of [eGcd]; the six mutable locals are the
    arguments.  [|b rem a| < |a|] makes it total on all of [Z]. *)
Equations? eGcd_loop (a b x y u v : Z) : Egcd by wf (Z.abs_nat a) lt :=
  eGcd_loop a b x y u v with Z.eq_dec a ZERO => {
    | left _ := mkEgcd b x y
    | right _ :=
        let q := Z.quot b a in
        let r := Z.rem b a in
        let m := x - u * q in
        let n := y - v * q in
        eGcd_loop r a u v m n }.
Proof.
  unfold ZERO in *.
  pose proof (Z.rem_bound_abs b a ltac:(assumption)). lia.
Qed.

Definition eGcd (a b : Z) : outcome Egcd :=
  if (a <=? ZERO) || (b <=? ZERO) then Thrown RangeError
  else Ret (eGcd_loop a b ZERO ONE ONE ZERO).

Definition toZn (x N : Z) : outcome Z :=
  if N <=? ZERO then Thrown RangeError
  else
    let aZn := Z.rem x N in
    Ret (if aZn <? ZERO then aZn + N else aZn).

Definition modInv (a n : Z) : outcome Z :=
  let* r := toZn a n in
  let* egcd := eGcd r n in
  if negb (egcd_g egcd =? ONE) then Thrown RangeError
  else toZn (egcd_x egcd) n.

(** Number of binary digits: the measure under which halving terminates. *)
Definition bitlen (z : Z) : nat :=
  match z with
  | Zpos p => Pos.size_nat p
  | _ => O
  end.

(** The [while (currExp > 0)] loop of [modPow]. *)
Equations? modPow_loop (result base currExp N : Z) : Z by wf (bitlen currExp) lt :=
  modPow_loop result base currExp N with Z_gt_dec currExp ZERO => {
    | right _ := result
    | left _ :=
        let result' :=
          if Z.rem currExp TWO =? ONE then Z.rem (result * base) N else result in
        modPow_loop result' (Z.rem (base ^ TWO) N) (Z.quot currExp TWO) N }.
Proof.
  unfold ZERO, TWO in *.
  destruct currExp as [| p | p]; try lia.
  destruct p as [q | q |].
  - replace (Z.quot (Z.pos q~1) 2) with (Z.pos q); [cbn; lia |].
    rewrite Z.quot_div_nonneg by lia. rewrite Pos2Z.inj_xI.
    Z.to_euclidean_division_equations. lia.
  - replace (Z.quot (Z.pos q~0) 2) with (Z.pos q); [cbn; lia |].
    rewrite Z.quot_div_nonneg by lia. rewrite Pos2Z.inj_xO.
    Z.to_euclidean_division_equations. lia.
  - cbv. lia.
Qed.

(** [modPow] calls itself on [abs y] when [y <= 0]; the depth of that
    recursion is the fuel. *)
Fixpoint modPow (fuel : nat) (x y N : Z) : outcome Z :=
  match fuel with
  | O => OutOfFuel
  | S fuel' =>
      if N <=? ONE then Thrown RangeError
      else
        let* base := toZn x N in
        if y <=? ZERO then
          let* p := modPow fuel' base (abs y) N in
          modInv p N
        else
          Ret (modPow_loop ONE base y N)
  end.

End ModularArithmetic.

Import ModularArithmetic.

(** ** StringUtils.ts

    A JavaScript string is the list of its code units; the embedding keeps
    to code units below 256, which covers every string the codec produces.
    A [Uint8Array] is a list of bytes.  A JavaScript number that may be
    [NaN] is an [option Z], with [None] for [NaN]. *)

Module StringUtils.

Abbreviation jsstring := (list ascii).

Definition str (s : string) : jsstring := list_ascii_of_string s.

Abbreviation number := (option Z).

Definition code (c : ascii) : Z := Z.of_N (N_of_ascii c).

Definition byte_val (b : Byte.byte) : Z := Z.of_N (Byte.to_N b).

(** Storing a number into a [Uint8Array] keeps it modulo 256; [NaN] is
    stored as 0. *)
Definition u8 (z : Z) : Byte.byte := default Byte.x00 (Byte.of_N (Z.to_N (z mod 256))).

Definition u8_of_number (n : number) : Byte.byte :=
  match n with
  | Some z => u8 z
  | None => Byte.x00
  end.

(** Bit operators send [NaN] and [undefined] to 0. *)
Definition toInt32 (n : number) : Z := default 0 n.

(** [inp[k]] on a [Uint8Array]: [undefined] out of range. *)
Definition elem (inp : list Byte.byte) (k : nat) : number := byte_val <$> inp !! k.

Definition charCodeAt (inp : jsstring) (k : nat) : number := code <$> inp !! k.

(** Modelled from the spec: [BASE64] is a table of [Constants.ts], which is
    not among the sources; the spec fixes the standard base64 alphabet, the
    one [num64OfBase64] below reads back. *)
Definition BASE64 : jsstring :=
  str "ABCDEFGHIJKLMNOPQRSTUVWXYZabcdefghijklmnopqrstuvwxyz0123456789+/".

(** Modelled from the spec: [HEX_DIGITS] is the other table of
    [Constants.ts], which is not among the sources.  The uses [b >> 4] and
    [b & 15] show sixteen entries indexed by digit value; neither the
    sources nor the spec fix the case of the letters, and lower case is
    assumed here.  Its digits only ever feed the big-integer parser, which
    reads both cases alike. *)
Definition HEX_DIGITS : jsstring := str "0123456789abcdef".

(** [inp[k] === c] on a string. *)
Definition charIs (inp : jsstring) (k : nat) (c : ascii) : bool :=
  match inp !! k with
  | Some c' => Ascii.eqb c' c
  | None => false
  end.

(** [a === b] on strings. *)
Fixpoint str_eqb (a b : jsstring) : bool :=
  match a, b with
  | [], [] => true
  | c :: a', d :: b' => Ascii.eqb c d && str_eqb a' b'
  | _, _ => false
  end.

(** [table[k]] appended to a string: the character, or the text
    [undefined] when [k] is outside the table. *)
Definition lookup_char (table : jsstring) (k : Z) : jsstring :=
  if k <? 0 then str "undefined"
  else match table !! Z.to_nat k with
       | Some c => [c]
       | None => str "undefined"
       end.

(** *** Hexadecimal text of integers *)

(** [toString(16)] of a number or [BigInt]: lower-case digits, no leading
    zero, a minus sign on negatives. *)
Definition toString16 (z : Z) : jsstring :=
  list_ascii_of_string (NilZero.string_of_int (Z.to_hex_int z)).

Definition hex_value (c : ascii) : option Z :=
  let n := code c in
  if (48 <=? n) && (n <=? 57) then Some (n - 48)
  else if (97 <=? n) && (n <=? 102) then Some (n - 87)
  else if (65 <=? n) && (n <=? 70) then Some (n - 55)
  else None.

Fixpoint parse_hex (digits : jsstring) (acc : Z) : option Z :=
  match digits with
  | [] => Some acc
  | c :: rest =>
      match hex_value c with
      | Some d => parse_hex rest (16 * acc + d)
      | None => None
      end
  end.

(** [BI.BigInt("0x" + digits)]: a [SyntaxError] when no digit follows the
    prefix or one of them is not hexadecimal. *)
Definition BigInt_of_hex (digits : jsstring) : outcome Z :=
  match digits with
  | [] => Thrown SyntaxError
  | _ => match parse_hex digits 0 with
         | Some z => Ret z
         | None => Thrown SyntaxError
         end
  end.

Definition padZeroPrefix (inp : jsstring) : jsstring :=
  if (length inp =? 1)%nat then "0"%char :: inp else inp.

Definition hexOfArray (inp : list Byte.byte) : jsstring :=
  fold_left
    (fun result i => result ++ padZeroPrefix (toString16 (toInt32 (elem inp i))))
    (seq 0 (length inp)) [].

Definition hexOfBuff (inp : list Byte.byte) : jsstring := hexOfArray inp.

(** The digits that follow ["0x"] in [prefixedHexOfArray] and
    [prefixedHexOfBuff]. *)
Definition hexDigitsOfArray (inp : list Byte.byte) : jsstring :=
  concat (map (fun b =>
                 lookup_char HEX_DIGITS (Z.shiftr (byte_val b) 4) ++
                 lookup_char HEX_DIGITS (Z.land (byte_val b) 15)) inp).

Definition bigintOfArray (inp : list Byte.byte) : outcome Z :=
  BigInt_of_hex (hexDigitsOfArray inp).

Definition nonprefixedHexOfPositiveBI (inp : Z) : jsstring :=
  let s := toString16 inp in
  if Nat.even (length s) then s
  else match s with
       | c :: rest => if Ascii.eqb c "0" then rest else "0"%char :: s
       | [] => "0"%char :: s
       end.

(** The counting loop of [trimHexZeroes]: [countZeroes] advances while it
    is inside the string and points at a zero digit. *)
Fixpoint countZeroes_loop (fuel : nat) (inp : jsstring) (countZeroes : nat) : nat :=
  match fuel with
  | O => countZeroes
  | S fuel' =>
      if (countZeroes <? length inp)%nat
         && charIs inp countZeroes "0"
      then countZeroes_loop fuel' inp (S countZeroes)
      else countZeroes
  end.

Definition trimHexZeroes (inp : jsstring) : jsstring :=
  let countZeroes := countZeroes_loop (length inp) inp 0 in
  if (0 <? countZeroes)%nat then
    if Nat.even (length inp - countZeroes)
    then drop countZeroes inp
    else drop (countZeroes - 1) inp
  else
    if Nat.even (length inp) then inp else "0"%char :: inp.

(** *** Base64 *)

Definition base64OfArray (inp : list Byte.byte) : jsstring :=
  let numWhole := (length inp / 3)%nat in
  let extraBytes := (length inp - numWhole * 3)%nat in
  let result :=
    fold_left
      (fun result i =>
         let b0 := toInt32 (elem inp (i * 3)) in
         let b1 := toInt32 (elem inp (i * 3 + 1)) in
         let b2 := toInt32 (elem inp (i * 3 + 2)) in
         result
           ++ lookup_char BASE64 (Z.shiftr b0 2)
           ++ lookup_char BASE64 (Z.shiftl (Z.land b0 3) 4 + Z.shiftr b1 4)
           ++ lookup_char BASE64 (Z.shiftl (Z.land b1 15) 2 + Z.shiftr b2 6)
           ++ lookup_char BASE64 (Z.land b2 63))
      (seq 0 numWhole) [] in
  let i := numWhole in
  let b0 := toInt32 (elem inp (i * 3)) in
  let b1 := toInt32 (elem inp (i * 3 + 1)) in
  let result :=
    if (extraBytes =? 1)%nat then
      result
        ++ lookup_char BASE64 (Z.shiftr b0 2)
        ++ lookup_char BASE64 (Z.shiftl (Z.land b0 3) 4)
    else if (extraBytes =? 2)%nat then
      result
        ++ lookup_char BASE64 (Z.shiftr b0 2)
        ++ lookup_char BASE64 (Z.shiftl (Z.land b0 3) 4 + Z.shiftr b1 4)
        ++ lookup_char BASE64 (Z.shiftl (Z.land b1 15) 2)
    else result in
  if (0 <? extraBytes)%nat
  then result ++ replicate (3 - extraBytes) "="%char
  else result.

Definition num64OfBase64 (charCode : number) : number :=
  match charCode with
  | None => None
  | Some c =>
      Some (if c =? 43 then 62
            else if c =? 47 then 63
            else if c <=? 57 then c + 4
            else if c <=? 90 then c - 65
            else c - 71)
  end.

(** The loop of [determinePadding] runs [i] down from the last index; the
    argument [n] is [i + 1], so that [n = 0] is the exit [i = -1]. *)
Fixpoint determinePadding_loop (inp : jsstring) (n : nat) (result : Z) : Z :=
  match n with
  | O => result
  | S i =>
      if charIs inp i "="
      then determinePadding_loop inp i (result + 1)
      else result
  end.

Definition determinePadding (inp : jsstring) : Z :=
  determinePadding_loop inp (length inp) 0.

(** One pass of the decoding loop: quad [i] of the text into bytes
    [3i .. 3i+2] of the array.  The last sum has a bare [int4], so it is
    [NaN] when the text ends early. *)
Definition decode_quad (inp : jsstring) (result : list Byte.byte) (i : nat)
  : list Byte.byte :=
  let int1 := num64OfBase64 (charCodeAt inp (i * 4)) in
  let int2 := num64OfBase64 (charCodeAt inp (i * 4 + 1)) in
  let int3 := num64OfBase64 (charCodeAt inp (i * 4 + 2)) in
  let int4 := num64OfBase64 (charCodeAt inp (i * 4 + 3)) in
  let result :=
    <[(i * 3)%nat := u8 (Z.shiftl (toInt32 int1) 2 + Z.shiftr (toInt32 int2) 4)]>
      result in
  let result :=
    <[(i * 3 + 1)%nat :=
        u8 (Z.shiftl (Z.land (toInt32 int2) 15) 4 + Z.shiftr (toInt32 int3) 2)]>
      result in
  <[(i * 3 + 2)%nat :=
      u8_of_number ((fun v => Z.shiftl (Z.land (toInt32 int3) 3) 6 + v) <$> int4)]>
    result.

(** [inp.length / 4] is a floating-point quotient.  The embedding keeps it
    exact by counting in quarters: [resultLength4] and [fullQuads4] are four
    times the source's [resultLength] and [fullQuads].  [new Uint8Array]
    truncates its length towards zero, and [i < fullQuads] is
    [4 * i < fullQuads4]. *)
Definition arrayOfBase64 (inp : jsstring) : list Byte.byte :=
  let paddingChars := determinePadding inp in
  let len := Z.of_nat (length inp) in
  let resultLength4 :=
    if paddingChars =? 0 then len * 3
    else if paddingChars =? 1 then len * 3 - 4
    else len * 3 - 8 in
  let result := replicate (Z.to_nat (Z.quot resultLength4 4)) Byte.x00 in
  let fullQuads4 := if paddingChars =? 0 then len else len - 4 in
  let passes := Z.to_nat ((fullQuads4 + 3) / 4) in
  let result := fold_left (decode_quad inp) (seq 0 passes) result in
  let i := passes in
  if paddingChars =? 1 then
    let int1 := num64OfBase64 (charCodeAt inp (i * 4)) in
    let int2 := num64OfBase64 (charCodeAt inp (i * 4 + 1)) in
    let result :=
      <[(i * 3)%nat := u8 (Z.shiftl (toInt32 int1) 2 + Z.shiftr (toInt32 int2) 4)]>
        result in
    let int3 := num64OfBase64 (charCodeAt inp (i * 4 + 2)) in
    <[(i * 3 + 1)%nat :=
        u8 (Z.shiftl (Z.land (toInt32 int2) 15) 4 + Z.shiftr (toInt32 int3) 2)]>
      result
  else if paddingChars =? 2 then
    let int1 := num64OfBase64 (charCodeAt inp (i * 4)) in
    let int2 := num64OfBase64 (charCodeAt inp (i * 4 + 1)) in
    <[(i * 3)%nat := u8 (Z.shiftl (toInt32 int1) 2 + Z.shiftr (toInt32 int2) 4)]>
      result
  else result.

Definition hexOfBase64 (inp : jsstring) : jsstring :=
  trimHexZeroes (hexOfArray (arrayOfBase64 inp)).

Definition bigintOfBase64 (inp : jsstring) : outcome Z :=
  bigintOfArray (arrayOfBase64 inp).

(** [parseInt(h, 16)]: leading white space is skipped, then an optional
    sign and an optional [0x] or [0X]; the value is that of the longest run
    of hexadecimal digits that follows, [NaN] when the run is empty. *)
Definition isWhiteSpace (c : ascii) : bool :=
  let n := code c in
  ((9 <=? n) && (n <=? 13)) || (n =? 32) || (n =? 160).

Fixpoint skipWhiteSpace (s : jsstring) : jsstring :=
  match s with
  | c :: rest => if isWhiteSpace c then skipWhiteSpace rest else s
  | [] => []
  end.

Fixpoint hexPrefixValue (s : jsstring) (acc : number) : number :=
  match s with
  | c :: rest =>
      match hex_value c with
      | Some d => hexPrefixValue rest (Some (16 * default 0 acc + d))
      | None => acc
      end
  | [] => acc
  end.

Definition stripHexPrefix (s : jsstring) : jsstring :=
  match s with
  | c0 :: cx :: rest =>
      if Ascii.eqb c0 "0" && (Ascii.eqb cx "x" || Ascii.eqb cx "X")
      then rest else s
  | _ => s
  end.

Definition parseInt16 (h : jsstring) : number :=
  match skipWhiteSpace h with
  | c :: rest =>
      if Ascii.eqb c "-" then Z.opp <$> hexPrefixValue (stripHexPrefix rest) None
      else if Ascii.eqb c "+" then hexPrefixValue (stripHexPrefix rest) None
      else hexPrefixValue (stripHexPrefix (c :: rest)) None
  | [] => None
  end.

(** [inp.match(/../g)]: successive pairs of characters, a pair never
    holding a line terminator (the dot does not match one). *)
Definition isLineTerminator (c : ascii) : bool :=
  let n := code c in (n =? 10) || (n =? 13).

Fixpoint matchPairs (inp : jsstring) : list jsstring :=
  match inp with
  | c1 :: tl =>
      match tl with
      | c2 :: rest =>
          if isLineTerminator c1 || isLineTerminator c2
          then matchPairs tl
          else [c1; c2] :: matchPairs rest
      | [] => []
      end
  | [] => []
  end.

Definition base64OfHex (inp : jsstring) : jsstring :=
  base64OfArray (map (fun h => u8_of_number (parseInt16 h)) (matchPairs inp)).

Definition base64OfBigInt (inp : Z) : jsstring :=
  base64OfHex (nonprefixedHexOfPositiveBI inp).

Definition prefixedHexOfArray (inp : list Byte.byte) : jsstring :=
  str "0x" ++ hexDigitsOfArray inp.

Definition prefixedHexOfBuff (inp : list Byte.byte) : jsstring :=
  str "0x" ++ hexDigitsOfArray inp.

Definition prefixedHexOfPositiveBI (inp : Z) : jsstring :=
  let s := toString16 inp in
  if Nat.even (length s) then str "0x" ++ s
  else match s with
       | c :: rest => if Ascii.eqb c "0" then str "0x" ++ rest else str "0x0" ++ s
       | [] => str "0x0" ++ s
       end.

End StringUtils.

Import StringUtils.

(** ** The digest of the platform

    [crypto.subtle.digest("SHA-256", _)] is SHA-256 as FIPS 180-4 defines
    it, on 32-bit words held in [Z]. *)

Module Sha256.

Definition w32 (z : Z) : Z := z mod 4294967296.

Definition add32 (x y : Z) : Z := w32 (x + y).

Definition rotr (n x : Z) : Z :=
  Z.lor (Z.shiftr x n) (w32 (Z.shiftl x (32 - n))).

Definition not32 (x : Z) : Z := Z.lxor x 4294967295.

Definition Ch (x y z : Z) : Z := Z.lxor (Z.land x y) (Z.land (not32 x) z).

Definition Maj (x y z : Z) : Z :=
  Z.lxor (Z.lxor (Z.land x y) (Z.land x z)) (Z.land y z).

Definition Sigma0 (x : Z) : Z := Z.lxor (Z.lxor (rotr 2 x) (rotr 13 x)) (rotr 22 x).
Definition Sigma1 (x : Z) : Z := Z.lxor (Z.lxor (rotr 6 x) (rotr 11 x)) (rotr 25 x).
Definition sigma0 (x : Z) : Z := Z.lxor (Z.lxor (rotr 7 x) (rotr 18 x)) (Z.shiftr x 3).
Definition sigma1 (x : Z) : Z := Z.lxor (Z.lxor (rotr 17 x) (rotr 19 x)) (Z.shiftr x 10).

Definition K256 : list Z :=
  [
    1116352408; 1899447441; 3049323471; 3921009573; 961987163; 1508970993;
    2453635748; 2870763221; 3624381080; 310598401; 607225278; 1426881987;
    1925078388; 2162078206; 2614888103; 3248222580; 3835390401; 4022224774;
    264347078; 604807628; 770255983; 1249150122; 1555081692; 1996064986;
    2554220882; 2821834349; 2952996808; 3210313671; 3336571891; 3584528711;
    113926993; 338241895; 666307205; 773529912; 1294757372; 1396182291;
    1695183700; 1986661051; 2177026350; 2456956037; 2730485921; 2820302411;
    3259730800; 3345764771; 3516065817; 3600352804; 4094571909; 275423344;
    430227734; 506948616; 659060556; 883997877; 958139571; 1322822218;
    1537002063; 1747873779; 1955562222; 2024104815; 2227730452; 2361852424;
    2428436474; 2756734187; 3204031479; 3329325298 ].

Definition H256 : list Z :=
  [
    1779033703; 3144134277; 1013904242; 2773480762;
    1359893119; 2600822924; 528734635; 1541459225 ].

(** Padding: a one bit, zeros, and the bit length on 64 bits, up to a
    multiple of 64 bytes. *)
Definition be_bytes (width : nat) (z : Z) : list Z :=
  map (fun k => Z.shiftr z (8 * Z.of_nat (width - 1 - k)) mod 256) (seq 0 width).

Definition pad (msg : list Z) : list Z :=
  let len := Z.of_nat (length msg) in
  let zeros := Z.to_nat ((55 - len) mod 64) in
  msg ++ [128] ++ replicate zeros 0 ++ be_bytes 8 (8 * len).

Fixpoint words (fuel : nat) (bytes : list Z) : list Z :=
  match fuel, bytes with
  | S fuel', b0 :: b1 :: b2 :: b3 :: rest =>
      (((b0 * 256 + b1) * 256 + b2) * 256 + b3) :: words fuel' rest
  | _, _ => []
  end.

(** The message schedule, newest word first: [w] holds the last sixteen. *)
Fixpoint schedule (n : nat) (w : list Z) : list Z :=
  match n with
  | O => w
  | S n' =>
      let next :=
        add32 (add32 (sigma1 (nth 1 w 0)) (nth 6 w 0))
              (add32 (sigma0 (nth 14 w 0)) (nth 15 w 0)) in
      schedule n' (next :: w)
  end.

Definition round (st : list Z) (kw : Z * Z) : list Z :=
  match st with
  | [a; b; c; d; e; f; g; h] =>
      let T1 := add32 (add32 (add32 h (Sigma1 e)) (add32 (Ch e f g) (fst kw))) (snd kw) in
      let T2 := add32 (Sigma0 a) (Maj a b c) in
      [add32 T1 T2; a; b; c; add32 d T1; e; f; g]
  | _ => st
  end.

Definition compress (st : list Z) (block : list Z) : list Z :=
  let w := rev (schedule 48 (rev block)) in
  let st' := fold_left round (combine K256 w) st in
  map (fun p => add32 (fst p) (snd p)) (combine st st').

Fixpoint blocks (fuel : nat) (ws : list Z) (st : list Z) : list Z :=
  match fuel with
  | O => st
  | S fuel' =>
      match ws with
      | [] => st
      | _ => blocks fuel' (drop 16 ws) (compress st (take 16 ws))
      end
  end.

Definition sha256 (msg : list Byte.byte) : list Byte.byte :=
  let bytes := pad (map byte_val msg) in
  let ws := words (length bytes) bytes in
  let st := blocks (length ws) ws H256 in
  map u8 (concat (map (be_bytes 4) st)).

End Sha256.

(** ** SecureRemotePassword.ts *)

Module SecureRemotePassword.

(** The fields of the class; [this_S] is the source's [this.S], and so on
    (the bare names collide with constructors of [nat], [True] and [N]). *)
Record session : Type := mkSession {
  this_verifier : Z;
  this_I : jsstring;
  this_S : Z;
  this_B : Z;
  this_P : jsstring;
  this_K : jsstring;
  this_AHex : jsstring;
  this_M1Hex : jsstring;
  this_salt : jsstring;
  this_k : Z;
  this_g : Z;
  this_N : Z
}.

(** The constructor, after [BI.BigInt] has read the three parameters. *)
Definition new_session (N g k : Z) : session :=
  mkSession ZERO [] ZERO ZERO [] [] [] [] [] k g N.

Definition set_I (v : jsstring) (t : session) : session :=
  mkSession (this_verifier t) v (this_S t) (this_B t) (this_P t) (this_K t)
    (this_AHex t) (this_M1Hex t) (this_salt t) (this_k t) (this_g t) (this_N t).
Definition set_P (v : jsstring) (t : session) : session :=
  mkSession (this_verifier t) (this_I t) (this_S t) (this_B t) v (this_K t)
    (this_AHex t) (this_M1Hex t) (this_salt t) (this_k t) (this_g t) (this_N t).
Definition set_B (v : Z) (t : session) : session :=
  mkSession (this_verifier t) (this_I t) (this_S t) v (this_P t) (this_K t)
    (this_AHex t) (this_M1Hex t) (this_salt t) (this_k t) (this_g t) (this_N t).
Definition set_AHex (v : jsstring) (t : session) : session :=
  mkSession (this_verifier t) (this_I t) (this_S t) (this_B t) (this_P t) (this_K t)
    v (this_M1Hex t) (this_salt t) (this_k t) (this_g t) (this_N t).
Definition set_verifier (v : Z) (t : session) : session :=
  mkSession v (this_I t) (this_S t) (this_B t) (this_P t) (this_K t)
    (this_AHex t) (this_M1Hex t) (this_salt t) (this_k t) (this_g t) (this_N t).
Definition set_S (v : Z) (t : session) : session :=
  mkSession (this_verifier t) (this_I t) v (this_B t) (this_P t) (this_K t)
    (this_AHex t) (this_M1Hex t) (this_salt t) (this_k t) (this_g t) (this_N t).
Definition set_K (v : jsstring) (t : session) : session :=
  mkSession (this_verifier t) (this_I t) (this_S t) (this_B t) (this_P t) v
    (this_AHex t) (this_M1Hex t) (this_salt t) (this_k t) (this_g t) (this_N t).
Definition set_M1Hex (v : jsstring) (t : session) : session :=
  mkSession (this_verifier t) (this_I t) (this_S t) (this_B t) (this_P t) (this_K t)
    (this_AHex t) v (this_salt t) (this_k t) (this_g t) (this_N t).

Inductive ValResult (T : Type) : Type :=
| Ok (value : T)
| Err (errMsg : jsstring).

Arguments Ok {T} value.
Arguments Err {T} errMsg.

Record DataForSignIn : Type := mkData { AB64 : jsstring; M1B64 : jsstring }.

(** A method body: it reads and writes the fields of [this] and may throw
    or fail to return. *)
Definition method (A : Type) : Type := session -> outcome (A * session).

Definition unit_m {A : Type} (a : A) : method A := fun t => Ret (a, t).

Definition bind_m {A B : Type} (m : method A) (k : A -> method B) : method B :=
  fun t => match m t with
           | Ret (a, t') => k a t'
           | Thrown e => Thrown e
           | OutOfFuel => OutOfFuel
           end.

Definition read {A : Type} (f : session -> A) : method A := fun t => Ret (f t, t).

Definition write (f : session -> session) : method unit := fun t => Ret (tt, f t).

Definition call {A : Type} (o : outcome A) : method A :=
  fun t => match o with
           | Ret a => Ret (a, t)
           | Thrown e => Thrown e
           | OutOfFuel => OutOfFuel
           end.

(** A call whose arguments are read from the fields. *)
Definition call_this {A : Type} (f : session -> outcome A) : method A :=
  fun t => call (f t) t.

Notation "x <- m ;; k" := (bind_m m (fun x => k))
  (at level 90, m at level 80, k at level 200, right associativity).
Notation "m ;;; k" := (bind_m m (fun _ => k))
  (at level 90, k at level 200, right associativity).

(** [BI.remainder] outside the kernel's guards: division by zero throws. *)
Definition BI_remainder (x N : Z) : outcome Z :=
  if N =? 0 then Thrown RangeError else Ret (Z.rem x N).

(** [TextEncoder.encode] on code units below 256. *)
Definition encodeUtf8 (x : jsstring) : list Byte.byte :=
  concat (map (fun c =>
                 let n := code c in
                 if n <? 128 then [u8 n]
                 else [u8 (Z.lor 192 (Z.shiftr n 6)); u8 (Z.lor 128 (Z.land n 63))])
              x).

(** [toUpperCase] on ASCII text, where it raises the letters a to z and
    nothing else; [step1] applies it to hexadecimal digits only.  The code
    units 181, 223 to 254 (247 apart) and 255, which JavaScript also
    raises, some of them out of the range of one byte, are left as they
    are: on a salt that holds one of them the model is not the code. *)
Definition toUpperCase (x : jsstring) : jsstring :=
  map (fun c =>
         let n := code c in
         if (97 <=? n) && (n <=? 122) then ascii_of_N (Z.to_N (n - 32)) else c)
      x.

Section Engine.

(** [crypto.subtle.digest("SHA-256", _)]. *)
Variable digest : list Byte.byte -> list Byte.byte.

Definition hash (x : jsstring) : list Byte.byte := digest (encodeUtf8 x).

(** One turn of the loop of [randomA] consumes one draw: the 512 bytes
    that [crypto.getRandomValues] gave [randomHex], and the decimal text of
    [(new Date()).getTime()]. *)
Definition draw : Type := (list Byte.byte * jsstring)%type.

Fixpoint randomA (draws : list draw) (t : session) : outcome Z :=
  match draws with
  | [] => OutOfFuel
  | (rnd, time) :: draws' =>
      let* rBi := bigintOfArray rnd in
      let* oneTimeBi :=
        bigintOfArray (hash (this_I t ++ str ":" ++ this_salt t ++ str ":" ++ time)) in
      let* r := BI_remainder (oneTimeBi + rBi) (this_N t) in
      if r =? ZERO then randomA draws' t else Ret r
  end.

Definition computeU (AHex BHex : jsstring) : outcome (option Z) :=
  let* result := bigintOfArray (hash (AHex ++ BHex)) in
  if result =? ZERO then Ret None else Ret (Some result).

Definition generateX (t : session) (saltHex identity pw : jsstring) : outcome Z :=
  let hash1 := hexOfBuff (hash (identity ++ str ":" ++ pw)) in
  let concat := toUpperCase (saltHex ++ hash1) in
  let* h := bigintOfArray (hash concat) in
  BI_remainder h (this_N t).

Definition posMod (inp N : Z) : outcome Z :=
  let* rem := BI_remainder inp N in
  Ret (if rem >=? ZERO then rem else rem + N).

Definition computeSessionKey (fuel : nat) (t : session) (x u a : Z) : outcome Z :=
  let exp := a + u * x in
  let kv := this_k t * this_verifier t in
  let* diff := posMod (this_B t - kv) (this_N t) in
  modPow fuel diff exp (this_N t).

Definition step1 (fuel : nat) (draws : list draw)
    (identity password saltB64 serverBB64 : jsstring)
  : method (ValResult DataForSignIn) :=
  write (set_I identity) ;;;
  write (set_P password) ;;;
  a <- call_this (randomA draws) ;;
  ANum <- call_this (fun t => modPow fuel (this_g t) a (this_N t)) ;;
  B <- call (bigintOfBase64 serverBB64) ;;
  write (set_B B) ;;;
  r <- call_this (fun t => BI_remainder (this_B t) (this_N t)) ;;
  if r =? ZERO then unit_m (Err (str "Bad server public value B = 0"))
  else
    x <- call_this (fun t => generateX t (hexOfBase64 saltB64) (this_I t) (this_P t)) ;;
    write (set_AHex (nonprefixedHexOfPositiveBI ANum)) ;;;
    u <- call_this (fun t => computeU (this_AHex t) (hexOfBase64 serverBB64)) ;;
    match u with
    | None => unit_m (Err (str "Bad client value u"))
    | Some u =>
        v <- call_this (fun t => modPow fuel (this_g t) x (this_N t)) ;;
        write (set_verifier v) ;;;
        S <- call_this (fun t => computeSessionKey fuel t x u a) ;;
        write (set_S S) ;;;
        sStr <- read (fun t => nonprefixedHexOfPositiveBI (this_S t)) ;;
        write (set_K (hexOfBuff (hash sStr))) ;;;
        M1Buff <- read (fun t =>
                    hash (this_AHex t ++ nonprefixedHexOfPositiveBI (this_B t) ++ sStr)) ;;
        write (set_M1Hex (hexOfBuff M1Buff)) ;;;
        AB64 <- read (fun t => base64OfHex (this_AHex t)) ;;
        M1B64 <- read (fun t => base64OfHex (this_M1Hex t)) ;;
        unit_m (Ok (mkData AB64 M1B64))
    end.

Definition step2 (serverM2B64 : jsstring) : method (ValResult Z) :=
  SHex <- read (fun t => nonprefixedHexOfPositiveBI (this_S t)) ;;
  M2Buff <- read (fun t => hash (this_AHex t ++ this_M1Hex t ++ SHex)) ;;
  let clientM2Hex := hexOfBuff M2Buff in
  let serverM2Hex := hexOfBase64 serverM2B64 in
  if negb (str_eqb clientM2Hex serverM2Hex)
  then unit_m (Err (str "Bad server credentials (M2)"))
  else S <- read this_S ;; unit_m (Ok S).

Definition generateVerifier (fuel : nat) (saltHex identity password : jsstring)
  : method Z :=
  x <- call_this (fun t => generateX t saltHex identity password) ;;
  v <- call_this (fun t => modPow fuel (this_g t) x (this_N t)) ;;
  write (set_verifier v) ;;;
  read this_verifier.

End Engine.

End SecureRemotePassword.

Import SecureRemotePassword.

(** ** A worked handshake

    A small prime group, the SHA-256 digest, one draw of the random source,
    and a server that holds the verifier of ["alice"] with password
    ["correct-password"] and answers with [B = k*v + g^b mod N]. *)
Definition demo_session : session := new_session 1000003 2 3.

Definition demo_rnd : list Byte.byte :=
  map (fun i => u8 (7 * Z.of_nat i + 3)) (seq 0 512).

Definition demo_salt : jsstring := str "wP/uEjQ=".

Definition demo_B : jsstring := str "Cec8".

(** The fields after step 1 of that handshake, drawn at time
    [1700000000468]. *)
Definition demo_after_step1 : session :=
  mkSession 659198 (str "alice") 468444 649020 (str "correct-password")
    (str "0c92d4c23f1224acb38e221a06fb0edd63f8fd86910546b52498df3113d8ea04")
    (str "02d445")
    (str "a43ed40569ea43214fac4281744e370303a438249a556cfe8cff7c9b769966b9")
    [] 3 2 1000003.

(** The evidence [H(A | M1 | S)] of that session, and its base64 text. *)
Definition demo_M2 : list Byte.byte :=
  map u8 [0; 149; 104; 80; 193; 203; 93; 208; 6; 191; 109; 72; 120; 24; 153; 115;
          221; 56; 136; 203; 92; 0; 124; 81; 92; 234; 50; 222; 74; 150; 20; 232].

Definition demo_M2B64 : jsstring :=
  str "AJVoUMHLXdAGv21IeBiZc904iMtcAHxRXOoy3kqWFOg=".

(** The outcome that stands for a failed authentication. *)
Definition credentialMismatch : ValResult Z := Err (str "Bad server credentials (M2)").

(** What C5 asks of [step2] before step 1: an outcome that is neither a
    success nor the authentication failure. *)
Definition rejectedAsProgrammingError (o : outcome (ValResult Z * session)) : Prop :=
  match o with
  | Ret (Ok _, _) => False
  | Ret (Err msg, _) => msg <> str "Bad server credentials (M2)"
  | Thrown _ => True
  | OutOfFuel => False
  end.

(** ** Canonical hexadecimal text *)

(** The canonical form in the words of the specification: strip the leading
    zero digits, then put one back when the count of digits left is odd. *)
Fixpoint stripLeadingZeroes (s : jsstring) : jsstring :=
  match s with
  | c :: rest => if Ascii.eqb c "0" then stripLeadingZeroes rest else s
  | [] => []
  end.

Definition canonicalHex (s : jsstring) : jsstring :=
  let t := stripLeadingZeroes s in
  if Nat.even (length t) then t else "0"%char :: t.

Fixpoint leadingZeroes (s : jsstring) : nat :=
  match s with
  | c :: rest => if Ascii.eqb c "0" then S (leadingZeroes rest) else O
  | [] => O
  end.

(** ** Base64 by chunks

    The encoder unrolled over the list: three bytes give four characters,
    a remainder of one or two bytes gives a padded quad. *)
Definition quad (b0 b1 b2 : Z) : jsstring :=
  lookup_char BASE64 (Z.shiftr b0 2)
    ++ lookup_char BASE64 (Z.shiftl (Z.land b0 3) 4 + Z.shiftr b1 4)
    ++ lookup_char BASE64 (Z.shiftl (Z.land b1 15) 2 + Z.shiftr b2 6)
    ++ lookup_char BASE64 (Z.land b2 63).

Fixpoint base64_chunks (inp : list Byte.byte) : jsstring :=
  match inp with
  | [] => []
  | [b0] =>
      lookup_char BASE64 (Z.shiftr (byte_val b0) 2)
        ++ lookup_char BASE64 (Z.shiftl (Z.land (byte_val b0) 3) 4)
        ++ ["="%char; "="%char]
  | [b0; b1] =>
      lookup_char BASE64 (Z.shiftr (byte_val b0) 2)
        ++ lookup_char BASE64
             (Z.shiftl (Z.land (byte_val b0) 3) 4 + Z.shiftr (byte_val b1) 4)
        ++ lookup_char BASE64 (Z.shiftl (Z.land (byte_val b1) 15) 2)
        ++ ["="%char]
  | b0 :: b1 :: b2 :: rest =>
      quad (byte_val b0) (byte_val b1) (byte_val b2) ++ base64_chunks rest
  end.

(** The value of a base64 character, as the decoder reads it. *)
Definition num64 (c : ascii) : Z := toInt32 (num64OfBase64 (Some (code c))).

(** The padding the encoder emits for an array of this length. *)
Definition paddingOf (len : nat) : Z :=
  match (len mod 3)%nat with
  | 0%nat => 0
  | 1%nat => 2
  | _ => 1
  end.

(** The table test behind the decoder: entry [k] is one character, not the
    padding sign, and it decodes to [k]. *)
Definition base64_entry_ok (k : Z) : bool :=
  match lookup_char BASE64 k with
  | [c] => (num64 c =? k) && negb (Ascii.eqb c "=")
  | _ => false
  end.

(** ** Bytes as hexadecimal text *)

(** The two digits [hexOfArray] writes for one byte. *)
Definition hexByte (b : Byte.byte) : jsstring :=
  padZeroPrefix (toString16 (byte_val b)).

(** A lower-case hexadecimal digit. *)
Definition isLowerHex (c : ascii) : bool :=
  let n := code c in
  ((48 <=? n) && (n <=? 57)) || ((97 <=? n) && (n <=? 102)).

(** An array without its leading zero bytes. *)
Fixpoint dropZeroBytes (inp : list Byte.byte) : list Byte.byte :=
  match inp with
  | b :: rest => if Byte.eqb b Byte.x00 then dropZeroBytes rest else inp
  | [] => []
  end.

(** The number whose base-256 digits, most significant first, are the
    bytes of the array. *)
Definition bigEndian (inp : list Byte.byte) : Z :=
  fold_left (fun acc b => 256 * acc + byte_val b) inp 0.

(** The digits of [prefixedHexOfArray] and [prefixedHexOfBuff] over a table
    that stands for [HEX_DIGITS]; [hexDigitsOfArray] is its instance at the
    table assumed above. *)
Definition hexDigitsWith (table : jsstring) (inp : list Byte.byte) : jsstring :=
  concat (map (fun b =>
                 lookup_char table (Z.shiftr (byte_val b) 4) ++
                 lookup_char table (Z.land (byte_val b) 15)) inp).

(** A table of the sixteen hexadecimal digits, each in either case: entry
    [i] is a digit of value [i]. *)
Definition hexTable_ok (table : jsstring) : bool :=
  forallb (fun i => match table !! i with
                    | Some c => match hex_value c with
                                | Some d => d =? Z.of_nat i
                                | None => false
                                end
                    | None => false
                    end)
          (seq 0 16).

(** The pair of bytes-to-text facts that every byte satisfies, as a test. *)
Definition hexByte_ok (b : Byte.byte) : bool :=
  match hexByte b with
  | [c1; c2] =>
      isLowerHex c1 && isLowerHex c2
      && negb (isLineTerminator c1 || isLineTerminator c2)
      && match parseInt16 [c1; c2] with
         | Some v => v =? byte_val b
         | None => false
         end
      && str_eqb (lookup_char HEX_DIGITS (Z.shiftr (byte_val b) 4)
                  ++ lookup_char HEX_DIGITS (Z.land (byte_val b) 15))
                 [c1; c2]
      && (Byte.eqb b Byte.x00 || negb (Ascii.eqb c1 "0" && Ascii.eqb c2 "0"))
  | _ => false
  end.

(** The test behind reading a pair of digits back into a byte. *)
Definition hexPair_ok (p : ascii * ascii) : bool :=
  negb (isLineTerminator (fst p) || isLineTerminator (snd p))
  && str_eqb (hexByte (u8_of_number (parseInt16 [fst p; snd p]))) [fst p; snd p].

(** ** Sample runs *)

Example eGcd_240_46 : eGcd 240 46 = Ret (mkEgcd 2 (-9) 47).
Proof. reflexivity. Qed.

Example modInv_3_7 : modInv 3 7 = Ret 5.
Proof. reflexivity. Qed.

Example modPow_5_117_19 : modPow 1 5 117 19 = Ret 1.
Proof. vm_compute. reflexivity. Qed.

Example modPow_negative : modPow 2 3 (-2) 7 = Ret 4.
Proof. vm_compute. reflexivity. Qed.

Example trimHexZeroes_even : trimHexZeroes (str "00012") = str "12".
Proof. reflexivity. Qed.

Example trimHexZeroes_odd : trimHexZeroes (str "0001") = str "01".
Proof. reflexivity. Qed.

Example trimHexZeroes_all_zero : trimHexZeroes (str "000") = [].
Proof. reflexivity. Qed.

Example nonprefixedHex_4095 : nonprefixedHexOfPositiveBI 4095 = str "0fff".
Proof. reflexivity. Qed.

Example base64OfArray_two_bytes : base64OfArray (map u8 [77; 97]) = str "TWE=".
Proof. reflexivity. Qed.

Example arrayOfBase64_zero_bytes :
  arrayOfBase64 (str "AAD//gM=") = map u8 [0; 0; 255; 254; 3].
Proof. reflexivity. Qed.

Example hexOfBase64_drops_zero_bytes : hexOfBase64 (str "AAD//gM=") = str "fffe03".
Proof. reflexivity. Qed.

Example bigintOfBase64_empty : bigintOfBase64 [] = Thrown SyntaxError.
Proof. reflexivity. Qed.

Example sha256_abc :
  hexOfArray (Sha256.sha256 (encodeUtf8 (str "abc")))
  = str "ba7816bf8f01cfea414140de5dae2223b00361a396177a9cb410ff61f20015ad".
Proof. vm_compute. reflexivity. Qed.

Example sha256_two_blocks :
  hexOfArray (Sha256.sha256
                (encodeUtf8 (str "abcdbcdecdefdefgefghfghighijhijkijkljklmklmnlmnomnopnopq")))
  = str "248d6a61d20638b8e5c026930c3e6039a33ce45964ff2167f6ecedd419db06c1".
Proof. vm_compute. reflexivity. Qed.

(** ** The extended Euclidean loop *)

Section Kernel.

Lemma eGcd_loop_inv (a0 b0 a b x y u v : Z) :
  0 <= a -> 0 < b ->
  b = a0 * x + b0 * y ->
  a = a0 * u + b0 * v ->
  egcd_g (eGcd_loop a b x y u v) = Z.gcd a b /\
  a0 * egcd_x (eGcd_loop a b x y u v) + b0 * egcd_y (eGcd_loop a b x y u v)
  = egcd_g (eGcd_loop a b x y u v).
Proof.
  funelim (eGcd_loop a b x y u v); intros Ha Hb Hbx Hau; unfold ZERO in *.
  - subst a. cbn [egcd_g egcd_x egcd_y]. rewrite Z.gcd_0_l. lia.
  - pose proof (Z.quot_rem' b a) as Hqr.
    assert (Hr : 0 <= Z.rem b a) by (apply Z.rem_nonneg; lia).
    match goal with
    | IH : forall _ _, _ -> _ -> _ -> _ -> _ |- _ =>
        destruct (IH a0 b0 Hr ltac:(lia) Hau ltac:(lia)) as [Hg Hlin]
    end.
    split; [| exact Hlin].
    rewrite Hg.
    rewrite (Z.gcd_comm a b).
    rewrite Hqr at 2.
    rewrite (Z.add_comm (a * _)), (Z.mul_comm a).
    rewrite Z.gcd_comm. symmetry. rewrite Z.gcd_comm.
    apply Z.gcd_add_mult_diag_r.
Qed.

Lemma eGcd_pos (a b : Z) :
  0 < a -> 0 < b ->
  eGcd a b = Ret (eGcd_loop a b 0 1 1 0) /\
  egcd_g (eGcd_loop a b 0 1 1 0) = Z.gcd a b /\
  a * egcd_x (eGcd_loop a b 0 1 1 0) + b * egcd_y (eGcd_loop a b 0 1 1 0)
  = egcd_g (eGcd_loop a b 0 1 1 0).
Proof.
  intros Ha Hb. split.
  - unfold eGcd, ZERO, ONE.
    destruct (Z.leb_spec a 0); [lia |].
    destruct (Z.leb_spec b 0); [lia |]. reflexivity.
  - apply eGcd_loop_inv; lia.
Qed.

Lemma eGcd_nonpos (a b : Z) :
  a <= 0 \/ b <= 0 -> eGcd a b = Thrown RangeError.
Proof.
  intros H. unfold eGcd, ZERO.
  destruct (Z.leb_spec a 0); [reflexivity |].
  destruct (Z.leb_spec b 0); [reflexivity | lia].
Qed.

(** ** Canonical residues *)

Lemma toZn_pos (x N : Z) : 0 < N -> toZn x N = Ret (x mod N).
Proof.
  intros HN. unfold toZn, ZERO.
  destruct (Z.leb_spec N 0); [lia |]. f_equal.
  pose proof (Z.quot_rem' x N) as Hqr.
  pose proof (Z.rem_bound_abs x N ltac:(lia)) as Hb.
  destruct (Z.ltb_spec (Z.rem x N) 0).
  - apply Z.mod_unique with (q := Z.quot x N - 1); lia.
  - apply Z.mod_unique with (q := Z.quot x N); lia.
Qed.

Lemma toZn_nonpos (x N : Z) : N <= 0 -> toZn x N = Thrown RangeError.
Proof.
  intros HN. unfold toZn, ZERO.
  destruct (Z.leb_spec N 0); [reflexivity | lia].
Qed.

(** ** Modular inverse *)

Lemma modInv_coprime (a n : Z) :
  1 < n -> Z.gcd a n = 1 ->
  exists r, modInv a n = Ret r /\ 0 <= r < n /\ (r * a) mod n = 1.
Proof.
  intros Hn Hg. unfold modInv.
  rewrite toZn_pos by lia. cbn [bind].
  assert (Hgm : Z.gcd (a mod n) n = 1) by (rewrite Z.gcd_mod_l; exact Hg).
  assert (Hpos : 0 < a mod n).
  { pose proof (Z.mod_pos_bound a n ltac:(lia)).
    destruct (Z.eq_dec (a mod n) 0) as [E | E]; [| lia].
    rewrite E, Z.gcd_0_l in Hgm. lia. }
  destruct (eGcd_pos (a mod n) n Hpos ltac:(lia)) as (-> & Hgcd & Hlin).
  cbn [bind]. rewrite Hgcd, Hgm. unfold ONE. cbn [Z.eqb Pos.eqb negb].
  rewrite toZn_pos by lia.
  eexists; split; [reflexivity |]. split.
  - apply Z.mod_pos_bound; lia.
  - rewrite Hgcd, Hgm in Hlin.
    set (x := egcd_x _) in *. set (y := egcd_y _) in *.
    rewrite Z.mul_mod_idemp_l by lia.
    rewrite <- Z.mul_mod_idemp_r by lia.
    replace (x * (a mod n)) with (1 + (- y) * n) by lia.
    rewrite Z.mod_add by lia. apply Z.mod_small; lia.
Qed.

Lemma modInv_no_inverse (a n : Z) :
  Z.gcd a n <> 1 \/ n <= 1 -> modInv a n = Thrown RangeError.
Proof.
  intros H. unfold modInv.
  destruct (Z_le_gt_dec n 0) as [Hn | Hn].
  { rewrite toZn_nonpos by lia. reflexivity. }
  rewrite toZn_pos by lia. cbn [bind].
  destruct (Z_le_gt_dec (a mod n) 0) as [Hz | Hz].
  { rewrite eGcd_nonpos by lia. reflexivity. }
  destruct (eGcd_pos (a mod n) n ltac:(lia) ltac:(lia)) as (-> & Hgcd & _).
  cbn [bind]. rewrite Hgcd, Z.gcd_mod_l. unfold ONE.
  destruct (Z.eqb_spec (Z.gcd a n) 1) as [E | E]; [| reflexivity].
  destruct H as [H | H]; [contradiction |].
  assert (n = 1) by lia. subst n. rewrite Z.mod_1_r in Hz. lia.
Qed.

(** ** Square-and-multiply *)

Lemma modPow_loop_spec (result base currExp N : Z) :
  0 < N -> 0 <= currExp -> 0 <= base -> 0 <= result < N ->
  modPow_loop result base currExp N = (result * base ^ currExp) mod N.
Proof.
  funelim (modPow_loop result base currExp N);
    intros HN He Hb Hr; unfold ZERO, ONE, TWO in *.
  - pose proof (Z.quot_rem' currExp 2) as Hqr.
    pose proof (Z.rem_bound_pos currExp 2 ltac:(lia) ltac:(lia)) as Hrem.
    pose proof (Z.quot_pos currExp 2 ltac:(lia) ltac:(lia)) as Hq.
    assert (Hsq : Z.rem (base ^ 2) N = (base * base) mod N).
    { rewrite Z.rem_mod_nonneg by nia. f_equal. lia. }
    assert (Hpow : forall k, 0 <= k ->
              ((base * base) mod N) ^ k mod N = base ^ (2 * k) mod N).
    { intros k Hk. rewrite <- Zpower_mod by lia.
      rewrite Z.pow_mul_r by lia. f_equal. f_equal. lia. }
    match goal with
    | IH : _ -> _ -> _ -> _ -> modPow_loop _ _ _ _ = _ |- _ =>
        rewrite IH; rewrite ?Hsq
    end; try lia.
    + rewrite <- Z.mul_mod_idemp_r, Hpow, Z.mul_mod_idemp_r by lia.
      destruct (Z.eqb_spec (Z.rem currExp 2) 1) as [E | E].
      * rewrite Z.rem_mod_nonneg by nia.
        rewrite Z.mul_mod_idemp_l by lia. f_equal.
        rewrite Hqr at 2. rewrite E, Z.pow_add_r by lia. rewrite Z.pow_1_r. lia.
      * f_equal. rewrite Hqr at 2.
        replace (Z.rem currExp 2) with 0 by lia. rewrite Z.add_0_r. reflexivity.
    + apply Z.mod_pos_bound; lia.
    + destruct (Z.eqb_spec (Z.rem currExp 2) 1); [| lia].
      rewrite Z.rem_mod_nonneg by nia. apply Z.mod_pos_bound; lia.
  - assert (currExp = 0) by lia. subst currExp.
    rewrite Z.pow_0_r, Z.mul_1_r. symmetry. apply Z.mod_small; lia.
Qed.

Lemma modPow_small_modulus (fuel : nat) (x y N : Z) :
  N <= 1 -> modPow (S fuel) x y N = Thrown RangeError.
Proof.
  intros HN. cbn [modPow]. unfold ONE.
  destruct (Z.leb_spec N 1); [reflexivity | lia].
Qed.

Lemma modPow_pos (fuel : nat) (x y N : Z) :
  1 < N -> 0 < y -> modPow (S fuel) x y N = Ret (x ^ y mod N).
Proof.
  intros HN Hy. cbn [modPow]. unfold ONE, ZERO.
  destruct (Z.leb_spec N 1); [lia |].
  rewrite toZn_pos by lia. cbn [bind].
  destruct (Z.leb_spec y 0); [lia |]. f_equal.
  pose proof (Z.mod_pos_bound x N ltac:(lia)).
  rewrite modPow_loop_spec by lia.
  rewrite Z.mul_1_l. symmetry. apply Zpower_mod. lia.
Qed.

Lemma modPow_neg (fuel : nat) (x y N : Z) :
  1 < N -> y < 0 ->
  modPow (S (S fuel)) x y N = modInv (x ^ (- y) mod N) N.
Proof.
  intros HN Hy.
  change (modPow (S (S fuel)) x y N) with
    (if N <=? ONE then Thrown RangeError
     else let* base := toZn x N in
          if y <=? ZERO then
            let* p := modPow (S fuel) base (abs y) N in modInv p N
          else Ret (modPow_loop ONE base y N)).
  unfold abs, ONE, ZERO.
  destruct (Z.leb_spec N 1); [lia |].
  rewrite toZn_pos by lia. cbn [bind].
  destruct (Z.leb_spec y 0); [| lia].
  destruct (Z.geb_spec y 0); [lia |].
  rewrite modPow_pos by lia. cbn [bind].
  rewrite <- Zpower_mod by lia. reflexivity.
Qed.

(** At exponent zero the call re-enters itself with the same arguments
    (up to reducing the base), whatever the fuel. *)
Lemma modPow_zero (fuel : nat) (x N : Z) :
  modPow (S fuel) x 0 N = if N <=? 1 then Thrown RangeError else OutOfFuel.
Proof.
  revert x. induction fuel as [| fuel IH]; intros x.
  - cbn [modPow]. unfold ONE, ZERO.
    destruct (Z.leb_spec N 1); [reflexivity |].
    rewrite toZn_pos by lia. reflexivity.
  - change (modPow (S (S fuel)) x 0 N) with
      (if N <=? ONE then Thrown RangeError
       else let* base := toZn x N in
            if 0 <=? ZERO then
              let* p := modPow (S fuel) base (abs 0) N in modInv p N
            else Ret (modPow_loop ONE base 0 N)).
    unfold ONE, ZERO. destruct (Z.leb_spec N 1) as [H | H]; [reflexivity |].
    rewrite toZn_pos by lia. cbn [bind Z.leb Z.compare abs].
    change (abs 0) with 0. rewrite IH.
    destruct (Z.leb_spec N 1); [lia | reflexivity].
Qed.

Lemma modInv_ret (a n r : Z) :
  modInv a n = Ret r ->
  1 < n /\ Z.gcd a n = 1 /\ 0 <= r < n /\ (r * a) mod n = 1.
Proof.
  intros Hr.
  destruct (Z_le_gt_dec n 1) as [Hn | Hn].
  { rewrite modInv_no_inverse in Hr by lia. discriminate. }
  destruct (Z.eq_dec (Z.gcd a n) 1) as [Hg | Hg].
  - destruct (modInv_coprime a n ltac:(lia) Hg) as (r' & Hr' & Hb & Hinv).
    rewrite Hr' in Hr. injection Hr as <-. repeat split; try lia; assumption.
  - rewrite modInv_no_inverse in Hr by (left; exact Hg). discriminate.
Qed.

Lemma gcd_pow_mod (x k N : Z) :
  0 < k -> Z.gcd (x ^ k mod N) N = 1 <-> Z.gcd x N = 1.
Proof.
  intros Hk. rewrite Z.gcd_mod_l. split; intros H.
  - pose proof (Z.gcd_nonneg x N) as Hnn.
    pose proof (Z.gcd_divide_l x N) as Hdx.
    pose proof (Z.gcd_divide_r x N) as HdN.
    assert (Hdp : (Z.gcd x N | x ^ k)).
    { replace k with (1 + (k - 1)) by lia.
      rewrite Z.pow_add_r, Z.pow_1_r by lia.
      apply Z.divide_mul_l. exact Hdx. }
    pose proof (Z.gcd_greatest _ _ _ Hdp HdN) as Hd1. rewrite H in Hd1.
    apply Z.divide_1_r_nonneg in Hd1; lia.
  - apply (Z.coprime_pow_l x N k); [lia | exact H].
Qed.

Lemma modPow_zero_no_value (fuel : nat) (x N v : Z) :
  modPow fuel x 0 N <> Ret v.
Proof.
  destruct fuel as [| fuel]; [discriminate |].
  rewrite modPow_zero. destruct (N <=? 1); discriminate.
Qed.

Lemma modPow_neg_inverse (f1 f2 : nat) (x y N v w : Z) :
  modPow f1 x (- y) N = Ret v ->
  (let* p := modPow f2 x y N in modInv p N) = Ret w ->
  v = w.
Proof.
  intros Hv Hw.
  destruct (Z_le_gt_dec N 1) as [HN | HN].
  { destruct f1; [discriminate |].
    rewrite modPow_small_modulus in Hv by lia. discriminate. }
  destruct (Z.lt_trichotomy y 0) as [Hy | [Hy | Hy]].
  - destruct f1 as [| f1]; [discriminate |].
    rewrite modPow_pos in Hv by lia. injection Hv as <-.
    destruct f2 as [| [| f2]]; try discriminate.
    { cbn [modPow] in Hw. unfold ONE, ZERO in Hw.
      destruct (Z.leb_spec N 1); [lia |].
      rewrite toZn_pos in Hw by lia. cbn [bind] in Hw.
      destruct (Z.leb_spec y 0); [discriminate | lia]. }
    rewrite modPow_neg in Hw by lia.
    destruct (modInv (x ^ (- y) mod N) N) as [p | |] eqn:Hp; try discriminate.
    cbn [bind] in Hw.
    apply modInv_ret in Hp. destruct Hp as (_ & _ & Hpb & Hpv).
    apply modInv_ret in Hw. destruct Hw as (_ & _ & Hwb & Hwp).
    set (v := x ^ (- y) mod N) in *.
    assert (Hvb : 0 <= v < N) by (apply Z.mod_pos_bound; lia).
    rewrite <- (Z.mod_small v N Hvb), <- (Z.mod_small w N Hwb).
    rewrite <- (Z.mul_1_l v), <- Hwp.
    rewrite Z.mul_mod_idemp_l by lia.
    rewrite <- Z.mul_assoc, <- Z.mul_mod_idemp_r, Hpv by lia.
    f_equal. lia.
  - subst y. exfalso. exact (modPow_zero_no_value _ _ _ _ Hv).
  - destruct f1 as [| [| f1]]; try discriminate.
    { cbn [modPow] in Hv. unfold ONE, ZERO in Hv.
      destruct (Z.leb_spec N 1); [lia |].
      rewrite toZn_pos in Hv by lia. cbn [bind] in Hv.
      destruct (Z.leb_spec (- y) 0); [discriminate | lia]. }
    rewrite modPow_neg in Hv by lia. rewrite Z.opp_involutive in Hv.
    destruct f2 as [| f2]; [discriminate |].
    rewrite modPow_pos in Hw by lia. cbn [bind] in Hw.
    congruence.
Qed.

End Kernel.

Section Codec.

Lemma countZeroes_loop_spec (p s : jsstring) :
  countZeroes_loop (length s) (p ++ s) (length p) = (length p + leadingZeroes s)%nat.
Proof.
  revert p. induction s as [| c s IH]; intros p; cbn [length countZeroes_loop leadingZeroes].
  - lia.
  - assert (Hlt : (length p <? length (p ++ c :: s))%nat = true).
    { apply Nat.ltb_lt. rewrite length_app. cbn. lia. }
    rewrite Hlt. unfold charIs.
    rewrite lookup_app_r by lia. rewrite Nat.sub_diag. cbn [lookup list_lookup andb].
    destruct (Ascii.eqb c "0") eqn:E; [| lia].
    specialize (IH (p ++ [c])).
    rewrite <- app_assoc, length_app in IH. cbn in IH.
    rewrite Nat.add_1_r in IH. rewrite IH. lia.
Qed.

Lemma leadingZeroes_split (s : jsstring) :
  s = replicate (leadingZeroes s) "0"%char ++ stripLeadingZeroes s.
Proof.
  induction s as [| c s IH]; [reflexivity |].
  cbn [leadingZeroes stripLeadingZeroes].
  destruct (Ascii.eqb_spec c "0") as [-> | Hc]; [| reflexivity].
  cbn [replicate app]. f_equal. exact IH.
Qed.

Lemma stripLeadingZeroes_head (s : jsstring) (c : ascii) (rest : jsstring) :
  stripLeadingZeroes s = c :: rest -> c <> "0"%char.
Proof.
  induction s as [| d s IH]; cbn [stripLeadingZeroes]; [discriminate |].
  destruct (Ascii.eqb_spec d "0") as [-> | Hd]; [exact IH |].
  intros [= <- _]. exact Hd.
Qed.

Lemma trimHexZeroes_canonicalHex (inp : jsstring) :
  trimHexZeroes inp = canonicalHex inp.
Proof.
  unfold trimHexZeroes, canonicalHex.
  pose proof (countZeroes_loop_spec [] inp) as Hc. cbn [app length Nat.add] in Hc.
  rewrite Hc. clear Hc.
  pose proof (leadingZeroes_split inp) as Hs.
  set (z := leadingZeroes inp) in *. set (t := stripLeadingZeroes inp) in *.
  assert (Hlen : length inp = (z + length t)%nat).
  { rewrite Hs at 1. rewrite length_app, length_replicate. reflexivity. }
  assert (Hdrop : drop z inp = t).
  { rewrite Hs at 1. rewrite drop_app_length'; [reflexivity |].
    symmetry. apply length_replicate. }
  destruct z as [| z'].
  - cbn [Nat.ltb Nat.leb]. cbn [replicate app] in Hs. rewrite <- Hs. reflexivity.
  - replace (0 <? S z')%nat with true by (symmetry; apply Nat.ltb_lt; lia).
    replace (length inp - S z')%nat with (length t) by lia.
    destruct (Nat.even (length t)); [exact Hdrop |].
    replace (S z' - 1)%nat with z' by lia.
    rewrite Hs at 1.
    change (replicate (S z') "0"%char) with ("0"%char :: replicate z' "0"%char).
    rewrite replicate_cons_app, <- app_assoc.
    rewrite drop_app_length'; [reflexivity | symmetry; apply length_replicate].
Qed.

Lemma canonicalHex_even (s : jsstring) : Nat.even (length (canonicalHex s)) = true.
Proof.
  unfold canonicalHex.
  destruct (Nat.even (length (stripLeadingZeroes s))) eqn:E; [exact E |].
  cbn [length]. rewrite Nat.even_succ, <- Nat.negb_even, E. reflexivity.
Qed.

Lemma canonicalHex_one_zero (s rest : jsstring) :
  canonicalHex s <> "0"%char :: "0"%char :: rest.
Proof.
  unfold canonicalHex.
  destruct (Nat.even (length (stripLeadingZeroes s))); intros H.
  - apply stripLeadingZeroes_head in H. congruence.
  - injection H as H. apply stripLeadingZeroes_head in H. congruence.
Qed.

(** ** Bytes, bits and the base64 table *)

Lemma byte_val_range (b : Byte.byte) : 0 <= byte_val b < 256.
Proof.
  unfold byte_val. pose proof (Byte.to_N_bounded b) as H. lia.
Qed.

Lemma u8_byte_val (b : Byte.byte) : u8 (byte_val b) = b.
Proof.
  unfold u8. rewrite Z.mod_small by apply byte_val_range.
  unfold byte_val. rewrite N2Z.id, Byte.of_to_N. reflexivity.
Qed.

Lemma land_3 (x : Z) : Z.land x 3 = x mod 4.
Proof. exact (Z.land_ones x 2 ltac:(lia)). Qed.

Lemma land_15 (x : Z) : Z.land x 15 = x mod 16.
Proof. exact (Z.land_ones x 4 ltac:(lia)). Qed.

Lemma land_63 (x : Z) : Z.land x 63 = x mod 64.
Proof. exact (Z.land_ones x 6 ltac:(lia)). Qed.

Ltac bits :=
  rewrite ?land_3, ?land_15, ?land_63;
  rewrite ?Z.shiftr_div_pow2, ?Z.shiftl_mul_pow2 by lia;
  change (2 ^ 2) with 4; change (2 ^ 4) with 16; change (2 ^ 6) with 64.

Lemma base64_table (k : Z) :
  0 <= k < 64 ->
  exists c, lookup_char BASE64 k = [c] /\ num64 c = k /\ c <> "="%char.
Proof.
  intros Hk.
  assert (Hall : forallb base64_entry_ok (map Z.of_nat (seq 0 64)) = true)
    by (vm_compute; reflexivity).
  rewrite forallb_forall in Hall.
  assert (Hin : In k (map Z.of_nat (seq 0 64))).
  { apply in_map_iff. exists (Z.to_nat k). split; [lia |].
    apply in_seq. lia. }
  specialize (Hall k Hin). unfold base64_entry_ok in Hall.
  destruct (lookup_char BASE64 k) as [| c [| ? ?]]; try discriminate.
  apply andb_true_iff in Hall. destruct Hall as [Hn Hc].
  exists c. split; [reflexivity |]. split; [lia |].
  intros ->. discriminate.
Qed.

Lemma quad_chars (v0 v1 v2 : Z) :
  0 <= v0 < 256 -> 0 <= v1 < 256 -> 0 <= v2 < 256 ->
  exists c1 c2 c3 c4,
    quad v0 v1 v2 = [c1; c2; c3; c4] /\
    c4 <> "="%char /\ c1 <> "="%char /\
    Z.shiftl (num64 c1) 2 + Z.shiftr (num64 c2) 4 = v0 /\
    Z.shiftl (Z.land (num64 c2) 15) 4 + Z.shiftr (num64 c3) 2 = v1 /\
    Z.shiftl (Z.land (num64 c3) 3) 6 + num64 c4 = v2.
Proof.
  intros H0 H1 H2. unfold quad.
  destruct (base64_table (Z.shiftr v0 2)) as (c1 & -> & N1 & E1).
  { bits. Z.to_euclidean_division_equations. lia. }
  destruct (base64_table (Z.shiftl (Z.land v0 3) 4 + Z.shiftr v1 4))
    as (c2 & -> & N2 & E2).
  { bits. Z.to_euclidean_division_equations. lia. }
  destruct (base64_table (Z.shiftl (Z.land v1 15) 2 + Z.shiftr v2 6))
    as (c3 & -> & N3 & E3).
  { bits. Z.to_euclidean_division_equations. lia. }
  destruct (base64_table (Z.land v2 63)) as (c4 & -> & N4 & E4).
  { bits. Z.to_euclidean_division_equations. lia. }
  exists c1, c2, c3, c4. split; [reflexivity |].
  split; [exact E4 |]. split; [exact E1 |].
  rewrite N1, N2, N3, N4.
  repeat split; bits; Z.to_euclidean_division_equations; lia.
Qed.

Lemma tail1_chars (v0 : Z) :
  0 <= v0 < 256 ->
  exists c1 c2,
    lookup_char BASE64 (Z.shiftr v0 2) = [c1] /\
    lookup_char BASE64 (Z.shiftl (Z.land v0 3) 4) = [c2] /\
    c2 <> "="%char /\
    Z.shiftl (num64 c1) 2 + Z.shiftr (num64 c2) 4 = v0.
Proof.
  intros H0.
  destruct (base64_table (Z.shiftr v0 2)) as (c1 & -> & N1 & E1).
  { bits. Z.to_euclidean_division_equations. lia. }
  destruct (base64_table (Z.shiftl (Z.land v0 3) 4)) as (c2 & -> & N2 & E2).
  { bits. Z.to_euclidean_division_equations. lia. }
  exists c1, c2. repeat split; try assumption.
  rewrite N1, N2. bits. Z.to_euclidean_division_equations. lia.
Qed.

Lemma tail2_chars (v0 v1 : Z) :
  0 <= v0 < 256 -> 0 <= v1 < 256 ->
  exists c1 c2 c3,
    lookup_char BASE64 (Z.shiftr v0 2) = [c1] /\
    lookup_char BASE64 (Z.shiftl (Z.land v0 3) 4 + Z.shiftr v1 4) = [c2] /\
    lookup_char BASE64 (Z.shiftl (Z.land v1 15) 2) = [c3] /\
    c3 <> "="%char /\
    Z.shiftl (num64 c1) 2 + Z.shiftr (num64 c2) 4 = v0 /\
    Z.shiftl (Z.land (num64 c2) 15) 4 + Z.shiftr (num64 c3) 2 = v1.
Proof.
  intros H0 H1.
  destruct (base64_table (Z.shiftr v0 2)) as (c1 & -> & N1 & E1).
  { bits. Z.to_euclidean_division_equations. lia. }
  destruct (base64_table (Z.shiftl (Z.land v0 3) 4 + Z.shiftr v1 4))
    as (c2 & -> & N2 & E2).
  { bits. Z.to_euclidean_division_equations. lia. }
  destruct (base64_table (Z.shiftl (Z.land v1 15) 2)) as (c3 & -> & N3 & E3).
  { bits. Z.to_euclidean_division_equations. lia. }
  exists c1, c2, c3. repeat split; try assumption.
  - rewrite N1, N2. bits. Z.to_euclidean_division_equations. lia.
  - rewrite N2, N3. bits. Z.to_euclidean_division_equations. lia.
Qed.

(** Induction over a list three elements at a time. *)
Lemma list_ind3 {A : Type} (P : list A -> Prop) :
  P [] -> (forall a, P [a]) -> (forall a b, P [a; b]) ->
  (forall a b c l, P l -> P (a :: b :: c :: l)) ->
  forall l, P l.
Proof.
  intros H0 H1 H2 H3 l.
  assert (H : forall n l', (length l' <= n)%nat -> P l').
  { intros n. induction n as [| n IH]; intros l' Hl.
    - destruct l'; [exact H0 | cbn in Hl; lia].
    - destruct l' as [| a [| b [| c l'']]]; auto.
      apply H3. apply IH. cbn in Hl. lia. }
  apply (H (length l)). lia.
Qed.

(** ** The encoder, chunk by chunk *)

Lemma elem_cons3 (b0 b1 b2 : Byte.byte) (rest : list Byte.byte) (k : nat) :
  elem (b0 :: b1 :: b2 :: rest) (3 + k) = elem rest k.
Proof. reflexivity. Qed.

Lemma encode_loop_prefix (f : jsstring -> nat -> jsstring)
    (g : nat -> jsstring) (l : list nat) (p acc : jsstring) :
  (forall r i, f r i = r ++ g i) ->
  fold_left f l (p ++ acc) = p ++ fold_left f l acc.
Proof.
  intros Hf. revert acc. induction l as [| i l IH]; intros acc; [reflexivity |].
  cbn [fold_left]. rewrite !Hf, <- app_assoc. apply IH.
Qed.

Lemma fold_left_seq_shift {S : Type} (f f' : S -> nat -> S) (n start : nat) (acc : S) :
  (forall r i, f r (Datatypes.S i) = f' r i) ->
  fold_left f (seq (Datatypes.S start) n) acc = fold_left f' (seq start n) acc.
Proof.
  intros Hf. revert start acc.
  induction n as [| n IH]; intros start acc; [reflexivity |].
  cbn [seq fold_left]. rewrite Hf. apply IH.
Qed.

Lemma div3_succ (n : nat) : ((3 + n) / 3 = Datatypes.S (n / 3))%nat.
Proof.
  replace (3 + n)%nat with (1 * 3 + n)%nat by lia.
  rewrite Nat.div_add_l by lia. lia.
Qed.

Lemma base64OfArray_cons3 (b0 b1 b2 : Byte.byte) (rest : list Byte.byte) :
  base64OfArray (b0 :: b1 :: b2 :: rest)
  = quad (byte_val b0) (byte_val b1) (byte_val b2) ++ base64OfArray rest.
Proof.
  unfold base64OfArray.
  change (length (b0 :: b1 :: b2 :: rest)) with (3 + length rest)%nat.
  replace ((3 + length rest) / 3)%nat with (Datatypes.S (length rest / 3)).
  2:{ symmetry. apply div3_succ. }
  set (q := (length rest / 3)%nat).
  replace (3 + length rest - Datatypes.S q * 3)%nat with (length rest - q * 3)%nat by lia.
  set (extra := (length rest - q * 3)%nat).
  cbn [seq fold_left].
  erewrite (fold_left_seq_shift _ _ q 0).
  2:{ intros r i.
      change (Datatypes.S i * 3)%nat with (3 + i * 3)%nat.
      rewrite <- !Nat.add_assoc, !elem_cons3. reflexivity. }
  change (Datatypes.S q * 3)%nat with (3 + q * 3)%nat.
  rewrite <- !Nat.add_assoc, !elem_cons3.
  change (0 * 3)%nat with 0%nat. cbn [Nat.add].
  change (toInt32 (elem (b0 :: b1 :: b2 :: rest) 0)) with (byte_val b0).
  change (toInt32 (elem (b0 :: b1 :: b2 :: rest) 1)) with (byte_val b1).
  change (toInt32 (elem (b0 :: b1 :: b2 :: rest) 2)) with (byte_val b2).
  fold (quad (byte_val b0) (byte_val b1) (byte_val b2)).
  match goal with
  | |- context [fold_left ?f (seq 0 q) ([] ++ ?p)] =>
      assert (Hpre : fold_left f (seq 0 q) ([] ++ p) = p ++ fold_left f (seq 0 q) [])
  end.
  { rewrite app_nil_l.
    rewrite <- (app_nil_r (quad _ _ _)) at 1.
    eapply encode_loop_prefix. intros r i. reflexivity. }
  rewrite Hpre. clear Hpre.
  destruct (extra =? 1)%nat; [| destruct (extra =? 2)%nat];
    destruct (0 <? extra)%nat; rewrite <- ?app_assoc; reflexivity.
Qed.

Lemma base64OfArray_chunks (inp : list Byte.byte) :
  base64OfArray inp = base64_chunks inp.
Proof.
  induction inp as [| b0 | b0 b1 | b0 b1 b2 rest IH] using list_ind3.
  - reflexivity.
  - unfold base64OfArray. cbn -[lookup_char BASE64 Z.shiftr Z.shiftl Z.land].
    rewrite <- !app_assoc. reflexivity.
  - unfold base64OfArray. cbn -[lookup_char BASE64 Z.shiftr Z.shiftl Z.land].
    rewrite <- !app_assoc. reflexivity.
  - rewrite base64OfArray_cons3, IH. reflexivity.
Qed.

(** ** Counting the padding *)

Lemma determinePadding_loop_acc (s : jsstring) (n : nat) (r : Z) :
  determinePadding_loop s n (r + 1) = determinePadding_loop s n r + 1.
Proof.
  revert r. induction n as [| n IH]; intros r; cbn [determinePadding_loop].
  - reflexivity.
  - destruct (charIs s n "="); [apply IH | reflexivity].
Qed.

Lemma determinePadding_loop_app (s t : jsstring) (n : nat) (r : Z) :
  (n <= length s)%nat ->
  determinePadding_loop (s ++ t) n r = determinePadding_loop s n r.
Proof.
  revert r. induction n as [| n IH]; intros r Hn; cbn [determinePadding_loop].
  - reflexivity.
  - unfold charIs. rewrite lookup_app_l by lia.
    destruct (s !! n) as [c |]; [| reflexivity].
    destruct (Ascii.eqb c "="); [apply IH; lia | reflexivity].
Qed.

Lemma determinePadding_snoc (s : jsstring) (c : ascii) :
  determinePadding (s ++ [c])
  = if Ascii.eqb c "=" then determinePadding s + 1 else 0.
Proof.
  unfold determinePadding. rewrite length_app. cbn [length].
  rewrite Nat.add_1_r. cbn [determinePadding_loop].
  unfold charIs at 1. rewrite lookup_app_r by lia.
  rewrite Nat.sub_diag. cbn [lookup list_lookup].
  destruct (Ascii.eqb c "="); [| reflexivity].
  rewrite determinePadding_loop_app by lia.
  apply determinePadding_loop_acc.
Qed.

Lemma determinePadding_bounds (s : jsstring) :
  0 <= determinePadding s <= Z.of_nat (length s).
Proof.
  induction s as [| c s IH] using rev_ind.
  - cbn. lia.
  - rewrite determinePadding_snoc, length_app. cbn [length].
    destruct (Ascii.eqb c "="); lia.
Qed.

Lemma determinePadding_app (p s : jsstring) :
  determinePadding s < Z.of_nat (length s) ->
  determinePadding (p ++ s) = determinePadding s.
Proof.
  induction s as [| c s IH] using rev_ind.
  - cbn. lia.
  - rewrite app_assoc, !determinePadding_snoc, length_app. cbn [length].
    destruct (Ascii.eqb c "="); [| reflexivity].
    intros H. rewrite IH by lia. reflexivity.
Qed.

(** ** The decoder, quad by quad *)

Lemma decode_quad_shift (c1 c2 c3 c4 : ascii) (s : jsstring)
    (x y z : Byte.byte) (arr : list Byte.byte) (i : nat) :
  decode_quad (c1 :: c2 :: c3 :: c4 :: s) (x :: y :: z :: arr) (Datatypes.S i)
  = x :: y :: z :: decode_quad s arr i.
Proof.
  unfold decode_quad.
  change (Datatypes.S i * 4)%nat with (4 + i * 4)%nat.
  change (Datatypes.S i * 3)%nat with (3 + i * 3)%nat.
  rewrite <- !Nat.add_assoc. reflexivity.
Qed.

Lemma decode_loop_shift (c1 c2 c3 c4 : ascii) (s : jsstring)
    (x y z : Byte.byte) (n start : nat) (arr : list Byte.byte) :
  fold_left (decode_quad (c1 :: c2 :: c3 :: c4 :: s))
            (seq (Datatypes.S start) n) (x :: y :: z :: arr)
  = x :: y :: z :: fold_left (decode_quad s) (seq start n) arr.
Proof.
  revert start arr. induction n as [| n IH]; intros start arr; [reflexivity |].
  cbn [seq fold_left]. rewrite decode_quad_shift. apply IH.
Qed.

Lemma decode_quad_first (c1 c2 c3 c4 : ascii) (s : jsstring)
    (arr : list Byte.byte) :
  decode_quad (c1 :: c2 :: c3 :: c4 :: s)
              (Byte.x00 :: Byte.x00 :: Byte.x00 :: arr) 0
  = u8 (Z.shiftl (num64 c1) 2 + Z.shiftr (num64 c2) 4)
    :: u8 (Z.shiftl (Z.land (num64 c2) 15) 4 + Z.shiftr (num64 c3) 2)
    :: u8 (Z.shiftl (Z.land (num64 c3) 3) 6 + num64 c4)
    :: arr.
Proof. reflexivity. Qed.

Lemma arrayOfBase64_cons4 (c1 c2 c3 c4 : ascii) (s : jsstring) (p : Z) :
  determinePadding (c1 :: c2 :: c3 :: c4 :: s) = p ->
  determinePadding s = p ->
  p = 0 \/ (4 <= length s)%nat ->
  arrayOfBase64 (c1 :: c2 :: c3 :: c4 :: s)
  = u8 (Z.shiftl (num64 c1) 2 + Z.shiftr (num64 c2) 4)
    :: u8 (Z.shiftl (Z.land (num64 c2) 15) 4 + Z.shiftr (num64 c3) 2)
    :: u8 (Z.shiftl (Z.land (num64 c3) 3) 6 + num64 c4)
    :: arrayOfBase64 s.
Proof.
  intros Hp1 Hp2 Hlen. unfold arrayOfBase64. rewrite Hp1, Hp2.
  change (length (c1 :: c2 :: c3 :: c4 :: s)) with (4 + length s)%nat.
  rewrite Nat2Z.inj_add. change (Z.of_nat 4) with 4.
  set (len := Z.of_nat (length s)).
  assert (Hl : 0 <= len) by lia.
  assert (Hl4 : p = 0 \/ 4 <= len) by lia.
  set (rl := if p =? 0 then len * 3 else if p =? 1 then len * 3 - 4 else len * 3 - 8).
  set (fq := if p =? 0 then len else len - 4).
  assert (Hrl : (if p =? 0 then (4 + len) * 3
                 else if p =? 1 then (4 + len) * 3 - 4 else (4 + len) * 3 - 8)
                = rl + 12 /\ 0 <= rl).
  { unfold rl. destruct (p =? 0) eqn:E0; [lia |].
    apply Z.eqb_neq in E0. destruct (p =? 1); lia. }
  destruct Hrl as [-> Hrl].
  assert (Hfq : (if p =? 0 then 4 + len else 4 + len - 4) = fq + 4 /\ 0 <= fq).
  { unfold fq. destruct (p =? 0) eqn:E0; [lia |].
    apply Z.eqb_neq in E0. lia. }
  destruct Hfq as [-> Hfq].
  replace (Z.to_nat (Z.quot (rl + 12) 4)) with (3 + Z.to_nat (Z.quot rl 4))%nat.
  2:{ rewrite !Z.quot_div_nonneg by lia.
      replace (rl + 12) with (rl + 3 * 4) by lia.
      rewrite Z.div_add by lia.
      pose proof (Z.div_pos rl 4 ltac:(lia) ltac:(lia)). lia. }
  replace (Z.to_nat ((fq + 4 + 3) / 4)) with (Datatypes.S (Z.to_nat ((fq + 3) / 4))).
  2:{ replace (fq + 4 + 3) with (fq + 3 + 1 * 4) by lia.
      rewrite Z.div_add by lia.
      pose proof (Z.div_pos (fq + 3) 4 ltac:(lia) ltac:(lia)). lia. }
  set (m := Z.to_nat (Z.quot rl 4)). set (n := Z.to_nat ((fq + 3) / 4)).
  change (replicate (3 + m) Byte.x00)
    with (Byte.x00 :: Byte.x00 :: Byte.x00 :: replicate m Byte.x00).
  cbn [seq fold_left].
  rewrite decode_quad_first, decode_loop_shift.
  change (Datatypes.S n * 4)%nat with (4 + n * 4)%nat.
  change (Datatypes.S n * 3)%nat with (3 + n * 3)%nat.
  rewrite <- !Nat.add_assoc.
  destruct (p =? 1); [reflexivity |].
  destruct (p =? 2); reflexivity.
Qed.

Lemma eqb_not_pad (c : ascii) : c <> "="%char -> Ascii.eqb c "=" = false.
Proof. intros H. apply Ascii.eqb_neq. exact H. Qed.

Lemma determinePadding_tail1 (c1 c2 : ascii) :
  c2 <> "="%char -> determinePadding [c1; c2; "="%char; "="%char] = 2.
Proof.
  intros H. unfold determinePadding. cbn [length determinePadding_loop].
  unfold charIs. cbn [lookup list_lookup]. rewrite (eqb_not_pad c2 H). reflexivity.
Qed.

Lemma determinePadding_tail2 (c1 c2 c3 : ascii) :
  c3 <> "="%char -> determinePadding [c1; c2; c3; "="%char] = 1.
Proof.
  intros H. unfold determinePadding. cbn [length determinePadding_loop].
  unfold charIs. cbn [lookup list_lookup]. rewrite (eqb_not_pad c3 H). reflexivity.
Qed.

Lemma determinePadding_full (c1 c2 c3 c4 : ascii) :
  c4 <> "="%char -> determinePadding [c1; c2; c3; c4] = 0.
Proof.
  intros H. unfold determinePadding. cbn [length determinePadding_loop].
  unfold charIs. cbn [lookup list_lookup]. rewrite (eqb_not_pad c4 H). reflexivity.
Qed.

Lemma arrayOfBase64_tail1 (c1 c2 : ascii) :
  c2 <> "="%char ->
  arrayOfBase64 [c1; c2; "="%char; "="%char]
  = [u8 (Z.shiftl (num64 c1) 2 + Z.shiftr (num64 c2) 4)].
Proof.
  intros H. unfold arrayOfBase64. rewrite (determinePadding_tail1 c1 c2 H).
  reflexivity.
Qed.

Lemma arrayOfBase64_tail2 (c1 c2 c3 : ascii) :
  c3 <> "="%char ->
  arrayOfBase64 [c1; c2; c3; "="%char]
  = [u8 (Z.shiftl (num64 c1) 2 + Z.shiftr (num64 c2) 4);
     u8 (Z.shiftl (Z.land (num64 c2) 15) 4 + Z.shiftr (num64 c3) 2)].
Proof.
  intros H. unfold arrayOfBase64. rewrite (determinePadding_tail2 c1 c2 c3 H).
  reflexivity.
Qed.

Lemma paddingOf_add3 (n : nat) : paddingOf (3 + n) = paddingOf n.
Proof.
  unfold paddingOf. replace (3 + n)%nat with (n + 1 * 3)%nat by lia.
  rewrite Nat.Div0.mod_add. reflexivity.
Qed.

(** Decoding what the chunked encoder wrote, with the padding it leaves. *)
Lemma decode_chunks (inp : list Byte.byte) :
  arrayOfBase64 (base64_chunks inp) = inp /\
  determinePadding (base64_chunks inp) = paddingOf (length inp) /\
  (inp <> [] ->
   determinePadding (base64_chunks inp) < Z.of_nat (length (base64_chunks inp)) /\
   (4 <= length (base64_chunks inp))%nat).
Proof.
  induction inp as [| b0 | b0 b1 | b0 b1 b2 rest IH] using list_ind3.
  - split; [reflexivity |]. split; [reflexivity |]. intros H. contradiction.
  - cbn [base64_chunks].
    destruct (tail1_chars (byte_val b0) (byte_val_range b0))
      as (c1 & c2 & -> & -> & E2 & Hv).
    cbn [app]. rewrite (arrayOfBase64_tail1 c1 c2 E2), (determinePadding_tail1 c1 c2 E2).
    rewrite Hv, u8_byte_val. cbn [length]. repeat split; try reflexivity; lia.
  - cbn [base64_chunks].
    destruct (tail2_chars (byte_val b0) (byte_val b1)
                (byte_val_range b0) (byte_val_range b1))
      as (c1 & c2 & c3 & -> & -> & -> & E3 & Hv0 & Hv1).
    cbn [app].
    rewrite (arrayOfBase64_tail2 c1 c2 c3 E3), (determinePadding_tail2 c1 c2 c3 E3).
    rewrite Hv0, Hv1, !u8_byte_val. cbn [length]. repeat split; try reflexivity; lia.
  - destruct IH as (IHdec & IHpad & IHlen).
    cbn [base64_chunks].
    destruct (quad_chars (byte_val b0) (byte_val b1) (byte_val b2)
                (byte_val_range b0) (byte_val_range b1) (byte_val_range b2))
      as (c1 & c2 & c3 & c4 & -> & E4 & E1 & Hv0 & Hv1 & Hv2).
    cbn [app]. set (s := base64_chunks rest) in *.
    assert (Hpad : determinePadding (c1 :: c2 :: c3 :: c4 :: s)
                   = paddingOf (length rest)).
    { destruct rest as [| r0 rest'].
      - subst s. cbn [base64_chunks]. apply determinePadding_full. exact E4.
      - destruct (IHlen ltac:(discriminate)) as [Hlt _].
        change (c1 :: c2 :: c3 :: c4 :: s) with ([c1; c2; c3; c4] ++ s).
        rewrite determinePadding_app by exact Hlt. exact IHpad. }
    assert (Hcase : paddingOf (length rest) = 0 \/ (4 <= length s)%nat).
    { destruct rest as [| r0 rest']; [left; reflexivity | right].
      apply IHlen. discriminate. }
    split; [| split].
    + rewrite (arrayOfBase64_cons4 c1 c2 c3 c4 s _ Hpad IHpad Hcase).
      rewrite Hv0, Hv1, Hv2, !u8_byte_val, IHdec. reflexivity.
    + rewrite Hpad. change (length (b0 :: b1 :: b2 :: rest)) with (3 + length rest)%nat.
      symmetry. apply paddingOf_add3.
    + intros _. rewrite Hpad, <- IHpad. cbn [length].
      pose proof (determinePadding_bounds s). lia.
Qed.

Lemma arrayOfBase64_base64OfArray (bytes : list Byte.byte) :
  arrayOfBase64 (base64OfArray bytes) = bytes.
Proof.
  rewrite base64OfArray_chunks. apply decode_chunks.
Qed.

End Codec.

(** ** The session *)

Section Session.

Variable digest : list Byte.byte -> list Byte.byte.

Lemma str_eqb_eq (a b : jsstring) : str_eqb a b = true <-> a = b.
Proof.
  revert b. induction a as [| c a IH]; intros [| d b]; cbn [str_eqb];
    try (split; [discriminate | discriminate]); [tauto |].
  rewrite andb_true_iff, IH, Ascii.eqb_eq. split.
  - intros [-> ->]. reflexivity.
  - intros [= -> ->]. auto.
Qed.

Lemma hexOfArray_cons (b : Byte.byte) (rest : list Byte.byte) :
  hexOfArray (b :: rest) = padZeroPrefix (toString16 (byte_val b)) ++ hexOfArray rest.
Proof.
  unfold hexOfArray. cbn [length seq fold_left].
  rewrite (fold_left_seq_shift _
             (fun result i =>
                result ++ padZeroPrefix (toString16 (toInt32 (elem rest i))))
             (length rest) 0) by reflexivity.
  change (toInt32 (elem (b :: rest) 0)) with (byte_val b).
  rewrite app_nil_l.
  rewrite <- (app_nil_r (padZeroPrefix _)) at 1.
  eapply encode_loop_prefix. intros r i. reflexivity.
Qed.

(** What [step2] returns, on any session. *)
Lemma step2_outcome (serverM2B64 : jsstring) (t : session) :
  step2 digest serverM2B64 t =
  Ret (if str_eqb
            (hexOfBuff (hash digest (this_AHex t ++ this_M1Hex t
                                     ++ nonprefixedHexOfPositiveBI (this_S t))))
            (hexOfBase64 serverM2B64)
       then Ok (this_S t) else credentialMismatch, t).
Proof.
  unfold step2, bind_m, read, unit_m.
  destruct (str_eqb _ _); reflexivity.
Qed.

Lemma step2_zero_led (serverM2B64 : jsstring) (t : session) (rest : list Byte.byte) :
  hash digest (this_AHex t ++ this_M1Hex t ++ nonprefixedHexOfPositiveBI (this_S t))
  = Byte.x00 :: rest ->
  step2 digest serverM2B64 t = Ret (credentialMismatch, t).
Proof.
  intros Hd. rewrite step2_outcome, Hd.
  destruct (str_eqb _ _) eqn:E; [| reflexivity].
  apply str_eqb_eq in E. unfold hexOfBuff, hexOfBase64 in E.
  rewrite hexOfArray_cons, trimHexZeroes_canonicalHex in E.
  symmetry in E. apply canonicalHex_one_zero in E. contradiction.
Qed.

Lemma modPow_zero_out_of_fuel (fuel : nat) (x N : Z) :
  1 < N -> modPow fuel x 0 N = OutOfFuel.
Proof.
  intros HN. destruct fuel as [| fuel]; [reflexivity |].
  rewrite modPow_zero. destruct (Z.leb_spec N 1); [lia | reflexivity].
Qed.

Lemma hex_value_nonneg (c : ascii) (d : Z) : hex_value c = Some d -> 0 <= d.
Proof.
  unfold hex_value. intros H.
  repeat match type of H with
         | (if ?b then _ else _) = _ => destruct b eqn:?
         end; try discriminate; injection H as <-; lia.
Qed.

Lemma parse_hex_nonneg (digits : jsstring) (acc z : Z) :
  parse_hex digits acc = Some z -> 0 <= acc -> 0 <= z.
Proof.
  revert acc. induction digits as [| c digits IH]; intros acc; cbn [parse_hex].
  - intros [= <-] H. exact H.
  - destruct (hex_value c) as [d |] eqn:Hd; [| discriminate].
    intros H Hacc. apply (IH _ H).
    pose proof (hex_value_nonneg c d Hd). lia.
Qed.

Lemma bigintOfArray_nonneg (inp : list Byte.byte) (z : Z) :
  bigintOfArray inp = Ret z -> 0 <= z.
Proof.
  unfold bigintOfArray, BigInt_of_hex.
  destruct (hexDigitsOfArray inp) as [| c digits]; [discriminate |].
  destruct (parse_hex (c :: digits) 0) as [v |] eqn:Hv; [| discriminate].
  intros [= <-]. apply (parse_hex_nonneg _ _ _ Hv). lia.
Qed.

(** The private value that [randomA] hands back is strictly positive. *)
Lemma randomA_pos (draws : list draw) (t : session) (a : Z) :
  0 < this_N t -> randomA digest draws t = Ret a -> 0 < a.
Proof.
  intros HN. induction draws as [| [rnd time] draws IH]; cbn [randomA]; [discriminate |].
  destruct (bigintOfArray rnd) as [rBi | |] eqn:Hr; cbn [bind]; try discriminate.
  destruct (bigintOfArray (hash digest _)) as [one | |] eqn:Ho; cbn [bind];
    try discriminate.
  unfold BI_remainder. destruct (Z.eqb_spec (this_N t) 0); [lia |]. cbn [bind].
  unfold ZERO. destruct (Z.eqb_spec (Z.rem (one + rBi) (this_N t)) 0) as [E | E];
    [exact IH |].
  intros [= <-].
  apply bigintOfArray_nonneg in Hr. apply bigintOfArray_nonneg in Ho.
  pose proof (Z.rem_nonneg (one + rBi) (this_N t) ltac:(lia) ltac:(lia)). lia.
Qed.

Lemma generateX_nonneg (t : session) (saltHex identity pw : jsstring) (x : Z) :
  0 < this_N t -> generateX digest t saltHex identity pw = Ret x -> 0 <= x.
Proof.
  intros HN. unfold generateX.
  destruct (bigintOfArray _) as [h | |] eqn:Hh; cbn [bind]; try discriminate.
  unfold BI_remainder. destruct (Z.eqb_spec (this_N t) 0); [lia |].
  intros [= <-]. apply bigintOfArray_nonneg in Hh.
  apply Z.rem_nonneg; lia.
Qed.

Lemma computeU_pos (AHex BHex : jsstring) (u : Z) :
  computeU digest AHex BHex = Ret (Some u) -> 0 < u.
Proof.
  unfold computeU.
  destruct (bigintOfArray _) as [h | |] eqn:Hh; cbn [bind]; try discriminate.
  unfold ZERO. destruct (Z.eqb_spec h 0); [discriminate |].
  intros [= <-]. apply bigintOfArray_nonneg in Hh. lia.
Qed.

(** *** The four ways out of [step1] under a modulus [N > 1] *)

Section Step1.

Variables (fuel : nat) (draws : list draw).
Variables (identity password saltB64 serverBB64 : jsstring).
Variables (t : session) (a B : Z).

Hypothesis HN : 1 < this_N t.
Hypothesis Ha : randomA digest draws (set_P password (set_I identity t)) = Ret a.
Hypothesis HB : bigintOfBase64 serverBB64 = Ret B.

Let run (f : nat) := step1 digest f draws identity password saltB64 serverBB64 t.

Let ANum := this_g t ^ a mod this_N t.

Lemma step1_private_pos : 0 < a.
Proof.
  apply (randomA_pos draws (set_P password (set_I identity t)) a);
    [cbn [this_N set_P set_I]; lia | exact Ha].
Qed.

Lemma step1_bad_server_value :
  Z.rem B (this_N t) = 0 ->
  run (S fuel)
  = Ret (Err (str "Bad server public value B = 0"),
         set_B B (set_P password (set_I identity t))).
Proof.
  intros HBN.
  pose proof step1_private_pos as Hapos.
  unfold run, step1, bind_m, write, call_this, call, read, unit_m.
  rewrite Ha. cbn [this_g this_N set_P set_I].
  rewrite modPow_pos by lia. rewrite HB.
  cbn [this_B this_N set_B set_P set_I].
  unfold BI_remainder.
  destruct (Z.eqb_spec (this_N t) 0) as [E | _]; [lia |].
  rewrite HBN. reflexivity.
Qed.

Section PastB.

Variables (x : Z).

Hypothesis HBN : Z.rem B (this_N t) <> 0.
Hypothesis Hx :
  generateX digest t (hexOfBase64 saltB64) identity password = Ret x.

Lemma step1_past_B (f : nat) :
  run (S f)
  = (u <- call_this (fun t' => computeU digest (this_AHex t') (hexOfBase64 serverBB64)) ;;
     match u with
     | None => unit_m (Err (str "Bad client value u"))
     | Some u =>
         v <- call_this (fun t' => modPow (S f) (this_g t') x (this_N t')) ;;
         write (set_verifier v) ;;;
         S <- call_this (fun t' => computeSessionKey (S f) t' x u a) ;;
         write (set_S S) ;;;
         sStr <- read (fun t' => nonprefixedHexOfPositiveBI (this_S t')) ;;
         write (set_K (hexOfBuff (hash digest sStr))) ;;;
         M1Buff <- read (fun t' =>
                     hash digest (this_AHex t'
                                  ++ nonprefixedHexOfPositiveBI (this_B t') ++ sStr)) ;;
         write (set_M1Hex (hexOfBuff M1Buff)) ;;;
         AB64 <- read (fun t' => base64OfHex (this_AHex t')) ;;
         M1B64 <- read (fun t' => base64OfHex (this_M1Hex t')) ;;
         unit_m (Ok (mkData AB64 M1B64))
     end)
      (set_AHex (nonprefixedHexOfPositiveBI ANum)
         (set_B B (set_P password (set_I identity t)))).
Proof.
  pose proof step1_private_pos as Hapos.
  unfold run, step1.
  unfold bind_m at 1 2 3 4 5 6 7 8 9. unfold write at 1 2 3 4.
  unfold call_this at 1 2 3 4, call at 1 2 3 4 5.
  rewrite Ha. cbn [this_g this_N set_P set_I].
  rewrite modPow_pos by lia. rewrite HB.
  cbn [this_B this_N set_B set_P set_I].
  unfold BI_remainder.
  destruct (Z.eqb_spec (this_N t) 0) as [E | _]; [lia |].
  unfold ZERO at 1.
  destruct (Z.eqb_spec (Z.rem B (this_N t)) 0) as [E | _]; [contradiction |].
  cbn [this_I this_P set_B set_P set_I].
  change (generateX digest (set_B B (set_P password (set_I identity t))))
    with (generateX digest t).
  rewrite Hx. reflexivity.
Qed.

Lemma step1_bad_scrambler :
  computeU digest (nonprefixedHexOfPositiveBI ANum) (hexOfBase64 serverBB64) = Ret None ->
  run (S fuel)
  = Ret (Err (str "Bad client value u"),
         set_AHex (nonprefixedHexOfPositiveBI ANum)
           (set_B B (set_P password (set_I identity t)))).
Proof.
  intros Hu. rewrite step1_past_B.
  unfold bind_m, call_this, call. cbn [this_AHex set_AHex]. rewrite Hu. reflexivity.
Qed.

Lemma step1_x_zero (u : Z) :
  x = 0 ->
  computeU digest (nonprefixedHexOfPositiveBI ANum) (hexOfBase64 serverBB64)
  = Ret (Some u) ->
  run fuel = OutOfFuel.
Proof.
  intros Hx0 Hu.
  destruct fuel as [| f].
  { unfold run, step1, bind_m, write, call_this, call. rewrite Ha. reflexivity. }
  rewrite step1_past_B.
  unfold bind_m, call_this, call. cbn [this_AHex set_AHex]. rewrite Hu.
  cbn [this_g this_N set_AHex set_B set_P set_I].
  rewrite Hx0, modPow_zero_out_of_fuel by lia. reflexivity.
Qed.

Lemma step1_success (u : Z) :
  x <> 0 ->
  computeU digest (nonprefixedHexOfPositiveBI ANum) (hexOfBase64 serverBB64)
  = Ret (Some u) ->
  exists d t',
    run (S fuel) = Ret (Ok d, t') /\
    AB64 d = base64OfHex (nonprefixedHexOfPositiveBI ANum) /\
    M1B64 d = base64OfHex (this_M1Hex t') /\
    this_verifier t' = this_g t ^ x mod this_N t /\
    this_S t'
    = ((B - this_k t * this_verifier t') mod this_N t) ^ (a + u * x) mod this_N t.
Proof.
  intros Hx0 Hu.
  pose proof step1_private_pos as Hapos.
  assert (Hxnn : 0 <= x) by (eapply generateX_nonneg; [| exact Hx]; lia).
  pose proof (computeU_pos _ _ _ Hu) as Hupos.
  rewrite step1_past_B.
  unfold bind_m at 1, call_this at 1, call at 1. cbn [this_AHex set_AHex]. rewrite Hu.
  unfold bind_m at 1, call_this at 1, call at 1.
  cbn [this_g this_N set_AHex set_B set_P set_I].
  rewrite modPow_pos by lia.
  unfold bind_m at 1, write at 1. unfold bind_m at 1, call_this at 1, call at 1.
  unfold computeSessionKey, posMod, BI_remainder.
  cbn [this_N this_B this_k this_verifier set_verifier set_AHex set_B set_P set_I].
  destruct (Z.eqb_spec (this_N t) 0) as [E | _]; [lia |]. cbn [bind].
  set (v := this_g t ^ x mod this_N t).
  assert (Hdiff : (if Z.rem (B - this_k t * v) (this_N t) >=? ZERO
                   then Z.rem (B - this_k t * v) (this_N t)
                   else Z.rem (B - this_k t * v) (this_N t) + this_N t)
                  = (B - this_k t * v) mod this_N t).
  { pose proof (toZn_pos (B - this_k t * v) (this_N t) ltac:(lia)) as Hz.
    unfold toZn, ZERO in Hz. unfold ZERO.
    destruct (Z.leb_spec (this_N t) 0); [lia |].
    injection Hz as Hz. rewrite <- Hz.
    destruct (Z.geb_spec (Z.rem (B - this_k t * v) (this_N t)) 0);
      destruct (Z.ltb_spec (Z.rem (B - this_k t * v) (this_N t)) 0); lia. }
  rewrite Hdiff. rewrite modPow_pos by nia.
  eexists. eexists. split; [reflexivity |].
  cbn. repeat split; reflexivity.
Qed.

End PastB.

End Step1.

End Session.

(** ** The kernel's contract *)

(** C6. On strictly positive [a] and [b], [eGcd] returns [(g, x, y)] with
    [a*x + b*y = g] and [g = gcd a b]; it throws [RangeError] exactly when
    [a <= 0] or [b <= 0]. *)
Theorem eGcd_correct (a b : Z) :
  (0 < a -> 0 < b ->
   exists r, eGcd a b = Ret r /\
             a * egcd_x r + b * egcd_y r = egcd_g r /\
             egcd_g r = Z.gcd a b) /\
  (eGcd a b = Thrown RangeError <-> a <= 0 \/ b <= 0).
Proof.
  split.
  - intros Ha Hb. destruct (eGcd_pos a b Ha Hb) as (Hr & Hg & Hlin).
    exists (eGcd_loop a b 0 1 1 0). auto.
  - split.
    + intros Ht. destruct (Z_le_gt_dec a 0); [lia |].
      destruct (Z_le_gt_dec b 0); [lia |].
      destruct (eGcd_pos a b ltac:(lia) ltac:(lia)) as (Hr & _).
      rewrite Hr in Ht. discriminate.
    + apply eGcd_nonpos.
Qed.

Lemma eGcd_correct_witness :
  exists r, eGcd 240 46 = Ret r /\
            240 * egcd_x r + 46 * egcd_y r = egcd_g r /\
            egcd_g r = Z.gcd 240 46.
Proof. apply (proj1 (eGcd_correct 240 46)); lia. Defined.

(** C7, as the code has it.  For [gcd a n = 1] and [n > 1], [modInv a n]
    returns [r] in [[0, n)] with [r * a = 1 (mod n)]; it throws [RangeError]
    exactly when [gcd a n <> 1] or [n <= 1]: at modulus one the canonical
    residue is zero and the guard of [eGcd] rejects it. *)
Theorem modInv_correct (a n : Z) :
  (1 < n -> Z.gcd a n = 1 ->
   exists r, modInv a n = Ret r /\ 0 <= r < n /\ (r * a) mod n = 1) /\
  (modInv a n = Thrown RangeError <-> Z.gcd a n <> 1 \/ n <= 1).
Proof.
  split; [apply modInv_coprime |].
  split; [| apply modInv_no_inverse].
  intros Ht.
  destruct (Z.eq_dec (Z.gcd a n) 1) as [Hg | Hg]; [| left; exact Hg].
  destruct (Z_le_gt_dec n 1) as [Hn | Hn]; [right; exact Hn |].
  destruct (modInv_coprime a n ltac:(lia) Hg) as (r & Hr & _).
  rewrite Hr in Ht. discriminate.
Qed.

Lemma modInv_correct_witness :
  exists r, modInv 3 7 = Ret r /\ 0 <= r < 7 /\ (r * 3) mod 7 = 1.
Proof. apply (proj1 (modInv_correct 3 7)); [lia | reflexivity]. Defined.

(** C7 as written fails at modulus one: [gcd 5 1 = 1] and [1 > 0], yet
    [modInv 5 1] throws. *)
Lemma modInv_modulus_one_throws :
  ~ (modInv 5 1 = Thrown RangeError <-> Z.gcd 5 1 <> 1 \/ 1 <= 0).
Proof.
  intros [H _]. destruct (H eq_refl) as [Hg | Hle].
  - apply Hg. reflexivity.
  - lia.
Qed.

(** C2, as the code has it.  A modulus [N <= 1] throws [RangeError].  For
    [N > 1]: a positive exponent gives the residue [x ^ y mod N]; a negative
    exponent gives the inverse of [x ^ (-y)] when [gcd x N = 1] and throws
    [RangeError] when it is not; and [modPow x (-y) N] agrees with
    [modInv (modPow x y N) N] whenever both return. *)
Theorem modPow_correct (fuel : nat) (x y N : Z) :
  (N <= 1 -> modPow (S (S fuel)) x y N = Thrown RangeError) /\
  (1 < N -> 0 < y -> modPow (S (S fuel)) x y N = Ret (x ^ y mod N)) /\
  (1 < N -> y < 0 -> Z.gcd x N = 1 ->
   exists r, modPow (S (S fuel)) x y N = Ret r /\
             0 <= r < N /\ (r * x ^ (- y)) mod N = 1) /\
  (1 < N -> y < 0 -> Z.gcd x N <> 1 ->
   modPow (S (S fuel)) x y N = Thrown RangeError) /\
  (forall (f1 f2 : nat) (v w : Z),
     modPow f1 x (- y) N = Ret v ->
     (let* p := modPow f2 x y N in modInv p N) = Ret w ->
     v = w).
Proof.
  repeat split.
  - apply modPow_small_modulus.
  - apply modPow_pos.
  - intros HN Hy Hg. rewrite modPow_neg by lia.
    destruct (modInv_coprime (x ^ (- y) mod N) N HN) as (r & Hr & Hb & Hinv).
    { apply gcd_pow_mod; [lia | exact Hg]. }
    exists r. split; [exact Hr |]. split; [exact Hb |].
    rewrite Z.mul_mod_idemp_r in Hinv by lia. exact Hinv.
  - intros HN Hy Hg. rewrite modPow_neg by lia.
    apply modInv_no_inverse. left. intros Hc. apply Hg.
    apply (gcd_pow_mod x (- y) N); [lia | exact Hc].
  - intros f1 f2 v w. apply modPow_neg_inverse.
Qed.

Lemma modPow_correct_witness :
  modPow 2 3 0 1 = Thrown RangeError /\
  modPow 2 3 4 7 = Ret (3 ^ 4 mod 7) /\
  (exists r, modPow 2 3 (-2) 7 = Ret r /\
             0 <= r < 7 /\ (r * 3 ^ (- (-2))) mod 7 = 1) /\
  modPow 2 2 (-1) 4 = Thrown RangeError /\
  3 ^ 2 mod 7 = 2.
Proof.
  split; [apply (proj1 (modPow_correct 0 3 0 1)); lia |].
  split; [apply (proj1 (proj2 (modPow_correct 0 3 4 7))); lia |].
  split; [apply (proj1 (proj2 (proj2 (modPow_correct 0 3 (-2) 7))));
          [lia | lia | reflexivity] |].
  split; [apply (proj1 (proj2 (proj2 (proj2 (modPow_correct 0 2 (-1) 4)))));
          [lia | lia | discriminate] |].
  apply (proj2 (proj2 (proj2 (proj2 (modPow_correct 0 3 (-2) 7)))) 1%nat 2%nat);
    reflexivity.
Defined.

(** C2 as written fails on a base that has no inverse: the modulus is
    greater than one and the call still throws. *)
Lemma modPow_noninvertible_throws :
  ~ (modPow 2 2 (-1) 4 = Thrown RangeError <-> 4 <= 1).
Proof. intros [H _]. specialize (H eq_refl). lia. Qed.

(** C3.  With exponent zero the guard [y <= 0] sends the call back into
    [modPow] with exponent [abs 0 = 0]: for a modulus [N > 1] no amount of
    fuel produces a value. *)
Theorem modPow_zero_exponent_diverges (fuel : nat) (x N : Z) :
  modPow (S fuel) x 0 N = if N <=? 1 then Thrown RangeError else OutOfFuel.
Proof. apply modPow_zero. Qed.

(** ** The codec's contract *)

(** C8.  [trimHexZeroes] is the canonical form of the specification: the
    leading zero digits are stripped and one is put back when the count of
    digits left is odd.  Its result has an even number of digits and never
    begins with two zero digits; [hexOfBase64] ends with it. *)
Theorem trimHexZeroes_canonical (inp : jsstring) :
  trimHexZeroes inp = canonicalHex inp /\
  Nat.even (length (trimHexZeroes inp)) = true /\
  (forall rest, trimHexZeroes inp <> "0"%char :: "0"%char :: rest) /\
  hexOfBase64 inp = trimHexZeroes (hexOfArray (arrayOfBase64 inp)) /\
  Nat.even (length (hexOfBase64 inp)) = true /\
  (forall rest, hexOfBase64 inp <> "0"%char :: "0"%char :: rest).
Proof.
  unfold hexOfBase64. rewrite !trimHexZeroes_canonicalHex.
  repeat split.
  - apply canonicalHex_even.
  - intros rest. apply canonicalHex_one_zero.
  - apply canonicalHex_even.
  - intros rest. apply canonicalHex_one_zero.
Qed.

(** C9.  Decoding the base64 text of a byte array gives the array back,
    whatever its bytes and its length. *)
Theorem base64_roundtrip (bytes : list Byte.byte) :
  arrayOfBase64 (base64OfArray bytes) = bytes.
Proof. apply arrayOfBase64_base64OfArray. Qed.

(** ** The handshake's contract *)

(** C1.  When the derived [x] is zero, [step1] never returns, although
    [B mod N] is not zero and [u] is not zero: [modPow g 0 N] re-enters
    itself for ever.  The same defect as C3. *)
Theorem step1_diverges_when_x_is_zero
    (digest : list Byte.byte -> list Byte.byte) (fuel : nat) (draws : list draw)
    (identity password saltB64 serverBB64 : jsstring) (t : session) (a B u : Z) :
  1 < this_N t ->
  randomA digest draws (set_P password (set_I identity t)) = Ret a ->
  bigintOfBase64 serverBB64 = Ret B ->
  Z.rem B (this_N t) <> 0 ->
  computeU digest (nonprefixedHexOfPositiveBI (this_g t ^ a mod this_N t))
           (hexOfBase64 serverBB64) = Ret (Some u) ->
  generateX digest t (hexOfBase64 saltB64) identity password = Ret 0 ->
  step1 digest fuel draws identity password saltB64 serverBB64 t = OutOfFuel.
Proof.
  intros HN Ha HB HBN Hu Hx.
  exact (step1_x_zero digest fuel draws identity password saltB64 serverBB64 t a B
           HN Ha HB 0 HBN Hx u eq_refl Hu).
Qed.

Lemma step1_diverges_when_x_is_zero_witness :
  step1 Sha256.sha256 64 [(demo_rnd, str "1700000000000")]
        (str "alice") (str "pw361874") demo_salt demo_B demo_session
  = OutOfFuel.
Proof.
  eapply (step1_diverges_when_x_is_zero Sha256.sha256 64
            [(demo_rnd, str "1700000000000")]
            (str "alice") (str "pw361874") demo_salt demo_B demo_session
            322680 649020).
  - vm_compute. reflexivity.
  - vm_compute. reflexivity.
  - vm_compute. reflexivity.
  - vm_compute. discriminate.
  - vm_compute. reflexivity.
  - vm_compute. reflexivity.
Defined.

(** C4.  When the expected evidence [H(A | M1 | S)] begins with a zero
    byte, [step2] reports a mismatch on the very bytes it expects: its own
    side keeps the leading [00] of [hexOfBuff], the server's side loses it
    in [trimHexZeroes]. *)
Theorem step2_rejects_zero_led_evidence
    (digest : list Byte.byte -> list Byte.byte) (t : session)
    (rest : list Byte.byte) :
  hash digest (this_AHex t ++ this_M1Hex t ++ nonprefixedHexOfPositiveBI (this_S t))
  = Byte.x00 :: rest ->
  arrayOfBase64 (base64OfArray (Byte.x00 :: rest)) = Byte.x00 :: rest /\
  step2 digest (base64OfArray (Byte.x00 :: rest)) t = Ret (credentialMismatch, t).
Proof.
  intros Hd. split.
  - apply arrayOfBase64_base64OfArray.
  - apply (step2_zero_led digest _ t rest Hd).
Qed.

Lemma step2_rejects_zero_led_evidence_witness :
  step1 Sha256.sha256 2 [(demo_rnd, str "1700000000468")]
        (str "alice") (str "correct-password") demo_salt demo_B demo_session
  = Ret (Ok (mkData (str "AtRF")
                    (str "pD7UBWnqQyFPrEKBdE43AwOkOCSaVWz+jP98m3aZZrk=")),
         demo_after_step1) /\
  hash Sha256.sha256
       (this_AHex demo_after_step1 ++ this_M1Hex demo_after_step1
        ++ nonprefixedHexOfPositiveBI (this_S demo_after_step1))
  = demo_M2 /\
  arrayOfBase64 demo_M2B64 = demo_M2 /\
  step2 Sha256.sha256 demo_M2B64 demo_after_step1
  = Ret (credentialMismatch, demo_after_step1).
Proof.
  split; [vm_compute; reflexivity |].
  split; [vm_compute; reflexivity |].
  assert (E : demo_M2B64 = base64OfArray (Byte.x00 :: tl demo_M2))
    by (vm_compute; reflexivity).
  assert (E2 : demo_M2 = Byte.x00 :: tl demo_M2) by (vm_compute; reflexivity).
  rewrite E, E2 at 1.
  apply (step2_rejects_zero_led_evidence Sha256.sha256 demo_after_step1 (tl demo_M2)).
  vm_compute. reflexivity.
Defined.

(** C5, as the code has it.  [step2] does not look at whether step 1 has
    run.  On every session it compares the digits of [H(AHex | M1Hex |
    hex(S))], taken from the fields as they are, with the digits of the
    server's M2: it returns success with the session's [S] exactly when
    they are equal, the authentication failure exactly when they differ,
    and never an outcome of a third kind. *)
Theorem step2_checks_evidence_only
    (digest : list Byte.byte -> list Byte.byte) (serverM2B64 : jsstring)
    (t : session) :
  step2 digest serverM2B64 t
  = Ret (if str_eqb
              (hexOfBuff (hash digest (this_AHex t ++ this_M1Hex t
                                       ++ nonprefixedHexOfPositiveBI (this_S t))))
              (hexOfBase64 serverM2B64)
         then Ok (this_S t) else credentialMismatch, t) /\
  (step2 digest serverM2B64 t = Ret (Ok (this_S t), t) <->
   hexOfBuff (hash digest (this_AHex t ++ this_M1Hex t
                           ++ nonprefixedHexOfPositiveBI (this_S t)))
   = hexOfBase64 serverM2B64) /\
  (step2 digest serverM2B64 t = Ret (credentialMismatch, t) <->
   hexOfBuff (hash digest (this_AHex t ++ this_M1Hex t
                           ++ nonprefixedHexOfPositiveBI (this_S t)))
   <> hexOfBase64 serverM2B64) /\
  ~ rejectedAsProgrammingError (step2 digest serverM2B64 t).
Proof.
  rewrite !step2_outcome. unfold credentialMismatch.
  destruct (str_eqb _ _) eqn:E.
  - apply str_eqb_eq in E.
    split; [reflexivity |]. split; [tauto |].
    split; [split; [discriminate | contradiction] |].
    cbn. tauto.
  - assert (Hne : hexOfBuff (hash digest (this_AHex t ++ this_M1Hex t
                                          ++ nonprefixedHexOfPositiveBI (this_S t)))
                  <> hexOfBase64 serverM2B64).
    { intros H. apply str_eqb_eq in H. congruence. }
    split; [reflexivity |].
    split; [split; [discriminate | contradiction] |].
    split; [tauto |].
    cbn. intros H. apply H. reflexivity.
Qed.

(** C5 as written fails on a session that never ran step 1: [step2]
    answers the evidence of the empty fields with success and [S = 0], and
    anything else with the authentication failure. *)
Lemma step2_before_step1_not_rejected :
  step2 Sha256.sha256 (str "47DEQpj8HBSa+/TImW+5JCeuQeRkm5NMpJWZG3hSuFU=") demo_session
  = Ret (Ok 0, demo_session) /\
  step2 Sha256.sha256 [] demo_session = Ret (credentialMismatch, demo_session) /\
  ~ rejectedAsProgrammingError (step2 Sha256.sha256 [] demo_session).
Proof.
  split; [vm_compute; reflexivity |].
  split; [vm_compute; reflexivity |].
  intros H.
  assert (E : step2 Sha256.sha256 [] demo_session
              = Ret (credentialMismatch, demo_session)) by (vm_compute; reflexivity).
  rewrite E in H. apply H. reflexivity.
Qed.

(** C10.  [step2] leaves every field of the session as it found it, on
    success and on failure, and a second call with the same argument
    returns what the first returned. *)
Theorem step2_writes_nothing
    (digest : list Byte.byte -> list Byte.byte) (serverM2B64 : jsstring)
    (t : session) :
  exists r,
    step2 digest serverM2B64 t = Ret (r, t) /\
    (r1 <- step2 digest serverM2B64 ;;
     r2 <- step2 digest serverM2B64 ;;
     unit_m (r1, r2)) t = Ret ((r, r), t).
Proof.
  eexists. split; [apply step2_outcome |].
  unfold bind_m. rewrite !step2_outcome. reflexivity.
Qed.

(** * Further properties of the code *)

(** ** The kernel *)

Section KernelMore.

Lemma inverse_unique (p v w N : Z) :
  1 < N -> 0 <= v < N -> 0 <= w < N ->
  (w * p) mod N = 1 -> (p * v) mod N = 1 -> v = w.
Proof.
  intros HN Hv Hw Hwp Hpv.
  rewrite <- (Z.mod_small v N Hv), <- (Z.mod_small w N Hw).
  rewrite <- (Z.mul_1_l v), <- Hwp.
  rewrite Z.mul_mod_idemp_l by lia.
  rewrite <- Z.mul_assoc, <- Z.mul_mod_idemp_r, Hpv by lia.
  f_equal. lia.
Qed.

Lemma inverse_coprime (r a n : Z) : 1 < n -> (r * a) mod n = 1 -> Z.gcd r n = 1.
Proof.
  intros Hn Hinv. apply Z.coprime_Bezout.
  exists a, (- ((r * a) / n)).
  pose proof (Z.div_mod (r * a) n ltac:(lia)) as Hdm. lia.
Qed.

Lemma modPow_ret_range (fuel : nat) (x y N v : Z) :
  modPow fuel x y N = Ret v -> 1 < N /\ 0 <= v < N.
Proof.
  destruct fuel as [| fuel]; [discriminate |].
  cbn [modPow]. unfold ONE, ZERO.
  destruct (Z.leb_spec N 1) as [HN | HN]; [discriminate |].
  rewrite toZn_pos by lia. cbn [bind].
  destruct (Z.leb_spec y 0) as [Hy | Hy].
  - destruct (modPow fuel (x mod N) (abs y) N) as [p | |]; cbn [bind];
      try discriminate.
    intros H. apply modInv_ret in H. tauto.
  - intros [= <-]. split; [lia |].
    pose proof (Z.mod_pos_bound x N ltac:(lia)).
    rewrite modPow_loop_spec by lia. apply Z.mod_pos_bound. lia.
Qed.

End KernelMore.

(** X1.  For a positive modulus [toZn] returns the one representative of
    [x] in [[0, N)]: it is congruent to [x], and reducing it again changes
    nothing.  It throws [RangeError] exactly when [N <= 0]. *)
Theorem toZn_canonical (x N : Z) :
  (0 < N ->
   exists r, toZn x N = Ret r /\ 0 <= r < N /\ (N | r - x) /\ toZn r N = Ret r) /\
  (toZn x N = Thrown RangeError <-> N <= 0).
Proof.
  split.
  - intros HN. exists (x mod N). rewrite !toZn_pos by lia.
    split; [reflexivity |]. split; [apply Z.mod_pos_bound; lia |].
    split.
    + exists (- (x / N)). pose proof (Z.div_mod x N ltac:(lia)). lia.
    + rewrite Z.mod_mod by lia. reflexivity.
  - split; [| apply toZn_nonpos].
    intros Ht. destruct (Z_le_gt_dec N 0) as [H | H]; [exact H |].
    rewrite toZn_pos in Ht by lia. discriminate.
Qed.

Lemma toZn_canonical_witness :
  exists r, toZn (-7) 5 = Ret r /\ 0 <= r < 5 /\ (5 | r - -7) /\ toZn r 5 = Ret r.
Proof. apply (proj1 (toZn_canonical (-7) 5)). lia. Defined.

(** X2.  The inverse of the inverse is the residue one started from:
    for [gcd a n = 1] and [n > 1], [modInv (modInv a n) n] is [a mod n]. *)
Theorem modInv_involutive (a n : Z) :
  1 < n -> Z.gcd a n = 1 ->
  exists r, modInv a n = Ret r /\ modInv r n = Ret (a mod n).
Proof.
  intros Hn Hg.
  destruct (modInv_coprime a n Hn Hg) as (r & Hr & Hrb & Hra).
  exists r. split; [exact Hr |].
  destruct (modInv_coprime r n Hn (inverse_coprime r a n Hn Hra))
    as (w & Hw & Hwb & Hwr).
  rewrite Hw. f_equal. symmetry.
  apply (inverse_unique r (a mod n) w n Hn); try assumption.
  - apply Z.mod_pos_bound. lia.
  - rewrite Z.mul_mod_idemp_r by lia. exact Hra.
Qed.

Lemma modInv_involutive_witness :
  exists r, modInv 10 7 = Ret r /\ modInv r 7 = Ret (10 mod 7).
Proof. apply (modInv_involutive 10 7); [lia | reflexivity]. Defined.

(** X3.  Whatever the sign of the exponent, a value that [modPow] returns
    is a canonical residue, and the modulus was greater than one. *)
Theorem modPow_returns_residue (fuel : nat) (x y N v : Z) :
  modPow fuel x y N = Ret v -> 1 < N /\ 0 <= v < N.
Proof. apply modPow_ret_range. Qed.

Lemma modPow_returns_residue_witness : 1 < 7 /\ 0 <= 4 < 7.
Proof. apply (modPow_returns_residue 2 3 (-2) 7 4). reflexivity. Defined.

(** ** Hexadecimal text *)

Section HexMore.

Lemma hexByte_ok_all (b : Byte.byte) : hexByte_ok b = true.
Proof. destruct b; vm_compute; reflexivity. Qed.

Lemma isLineTerminator_orb (c1 c2 : ascii) :
  negb (isLineTerminator c1 || isLineTerminator c2) = true ->
  isLineTerminator c1 || isLineTerminator c2 = false.
Proof. destruct (isLineTerminator c1 || isLineTerminator c2); [discriminate | reflexivity]. Qed.

(** What the test says of every byte. *)
Lemma hexByte_facts (b : Byte.byte) :
  exists c1 c2,
    hexByte b = [c1; c2] /\
    isLowerHex c1 = true /\ isLowerHex c2 = true /\
    isLineTerminator c1 || isLineTerminator c2 = false /\
    parseInt16 [c1; c2] = Some (byte_val b) /\
    lookup_char HEX_DIGITS (Z.shiftr (byte_val b) 4)
      ++ lookup_char HEX_DIGITS (Z.land (byte_val b) 15) = [c1; c2] /\
    (b <> Byte.x00 -> ~ (c1 = "0"%char /\ c2 = "0"%char)).
Proof.
  pose proof (hexByte_ok_all b) as H. unfold hexByte_ok in H.
  destruct (hexByte b) as [| c1 [| c2 [| ? ?]]]; try discriminate.
  apply andb_true_iff in H. destruct H as [H Hz].
  apply andb_true_iff in H. destruct H as [H Ht].
  apply andb_true_iff in H. destruct H as [H Hp].
  apply andb_true_iff in H. destruct H as [H Hl].
  apply andb_true_iff in H. destruct H as [L1 L2].
  exists c1, c2. split; [reflexivity |].
  split; [exact L1 |]. split; [exact L2 |].
  split; [apply isLineTerminator_orb; exact Hl |].
  split.
  { destruct (parseInt16 [c1; c2]) as [v |]; [| discriminate].
    f_equal. lia. }
  split; [apply str_eqb_eq; exact Ht |].
  intros Hb [-> ->].
  apply orb_true_iff in Hz. destruct Hz as [Hz | Hz]; [| discriminate].
  apply Hb. apply Byte.byte_dec_bl. exact Hz.
Qed.

Lemma hexOfArray_concat (bytes : list Byte.byte) :
  hexOfArray bytes = concat (map hexByte bytes).
Proof.
  induction bytes as [| b bytes IH]; [reflexivity |].
  rewrite hexOfArray_cons, IH. reflexivity.
Qed.

Lemma hexOfArray_length (bytes : list Byte.byte) :
  length (hexOfArray bytes) = (2 * length bytes)%nat.
Proof.
  induction bytes as [| b bytes IH]; [reflexivity |].
  rewrite hexOfArray_cons, length_app, IH.
  destruct (hexByte_facts b) as (c1 & c2 & E & _).
  fold (hexByte b). rewrite E. cbn [length]. lia.
Qed.

Lemma hexOfArray_lower (bytes : list Byte.byte) :
  forallb isLowerHex (hexOfArray bytes) = true.
Proof.
  induction bytes as [| b bytes IH]; [reflexivity |].
  rewrite hexOfArray_cons, forallb_app, IH.
  destruct (hexByte_facts b) as (c1 & c2 & E & L1 & L2 & _).
  fold (hexByte b). rewrite E. cbn [forallb]. rewrite L1, L2. reflexivity.
Qed.

Lemma hexOfArray_app (a b : list Byte.byte) :
  hexOfArray (a ++ b) = hexOfArray a ++ hexOfArray b.
Proof.
  rewrite !hexOfArray_concat, map_app, concat_app. reflexivity.
Qed.

Lemma matchPairs_hexOfArray (bytes : list Byte.byte) :
  matchPairs (hexOfArray bytes) = map hexByte bytes.
Proof.
  induction bytes as [| b bytes IH]; [reflexivity |].
  rewrite hexOfArray_cons. fold (hexByte b).
  destruct (hexByte_facts b) as (c1 & c2 & E & _ & _ & Hl & _).
  cbn [map]. rewrite E. cbn [app matchPairs]. rewrite Hl, IH. reflexivity.
Qed.

Lemma bytesOfHex_hexOfArray (bytes : list Byte.byte) :
  map (fun h => u8_of_number (parseInt16 h)) (matchPairs (hexOfArray bytes)) = bytes.
Proof.
  rewrite matchPairs_hexOfArray, map_map.
  induction bytes as [| b bytes IH]; [reflexivity |].
  cbn [map]. rewrite IH. f_equal.
  destruct (hexByte_facts b) as (c1 & c2 & E & _ & _ & _ & Hp & _).
  rewrite E, Hp. cbn [u8_of_number]. apply u8_byte_val.
Qed.

Lemma hexDigitsOfArray_hexOfArray (bytes : list Byte.byte) :
  hexDigitsOfArray bytes = hexOfArray bytes.
Proof.
  rewrite hexOfArray_concat. unfold hexDigitsOfArray. f_equal.
  apply map_ext. intros b.
  destruct (hexByte_facts b) as (c1 & c2 & E & _ & _ & _ & _ & Ht & _).
  rewrite Ht, E. reflexivity.
Qed.

(** *** Leading zeros *)

Lemma stripLeadingZeroes_fixed (s : jsstring) :
  (forall c rest, s = c :: rest -> c <> "0"%char) -> stripLeadingZeroes s = s.
Proof.
  destruct s as [| c s]; [reflexivity |]. intros H. cbn [stripLeadingZeroes].
  rewrite (proj2 (Ascii.eqb_neq c "0") (H c s eq_refl)). reflexivity.
Qed.

Lemma stripLeadingZeroes_idem (s : jsstring) :
  stripLeadingZeroes (stripLeadingZeroes s) = stripLeadingZeroes s.
Proof.
  apply stripLeadingZeroes_fixed. intros c rest H.
  exact (stripLeadingZeroes_head s c rest H).
Qed.

Lemma canonicalHex_idem (s : jsstring) : canonicalHex (canonicalHex s) = canonicalHex s.
Proof.
  unfold canonicalHex at 2.
  destruct (Nat.even (length (stripLeadingZeroes s))) eqn:E; unfold canonicalHex.
  - rewrite stripLeadingZeroes_idem, E. reflexivity.
  - cbn [stripLeadingZeroes]. change (Ascii.eqb "0" "0") with true. cbn iota.
    rewrite stripLeadingZeroes_idem, E. reflexivity.
Qed.

Lemma parse_hex_zero_digit (s : jsstring) :
  parse_hex ("0"%char :: s) 0 = parse_hex s 0.
Proof. reflexivity. Qed.

Lemma parse_hex_strip (s : jsstring) :
  parse_hex (stripLeadingZeroes s) 0 = parse_hex s 0.
Proof.
  induction s as [| c s IH]; [reflexivity |]. cbn [stripLeadingZeroes].
  destruct (Ascii.eqb_spec c "0") as [-> | Hc]; [| reflexivity].
  rewrite parse_hex_zero_digit. exact IH.
Qed.

Lemma parse_hex_canonicalHex (s : jsstring) :
  parse_hex (canonicalHex s) 0 = parse_hex s 0.
Proof.
  unfold canonicalHex. destruct (Nat.even (length (stripLeadingZeroes s)));
    rewrite ?parse_hex_zero_digit; apply parse_hex_strip.
Qed.

Lemma canonicalHex_zero_pair (s : jsstring) :
  canonicalHex ("0"%char :: "0"%char :: s) = canonicalHex s.
Proof. reflexivity. Qed.

Lemma canonicalHex_hexOfArray (bytes : list Byte.byte) :
  canonicalHex (hexOfArray bytes) = hexOfArray (dropZeroBytes bytes).
Proof.
  induction bytes as [| b bytes IH]; [reflexivity |].
  cbn [dropZeroBytes].
  destruct (Byte.eqb b Byte.x00) eqn:Eb.
  - apply Byte.byte_dec_bl in Eb. subst b.
    rewrite hexOfArray_cons.
    change (padZeroPrefix (toString16 (byte_val Byte.x00)))
      with ["0"%char; "0"%char].
    cbn [app]. rewrite canonicalHex_zero_pair. exact IH.
  - assert (Hb : b <> Byte.x00).
    { intros ->. discriminate. }
    pose proof (hexOfArray_length bytes) as Hlen.
    rewrite hexOfArray_cons. fold (hexByte b).
    destruct (hexByte_facts b) as (c1 & c2 & E & _ & _ & _ & _ & _ & Hz).
    rewrite E. cbn [app]. specialize (Hz Hb).
    unfold canonicalHex. cbn [stripLeadingZeroes].
    destruct (Ascii.eqb_spec c1 "0") as [-> | H1].
    + assert (H2 : c2 <> "0"%char) by (intros ->; apply Hz; split; reflexivity).
      rewrite (proj2 (Ascii.eqb_neq c2 "0") H2).
      cbn [length]. rewrite Hlen.
      rewrite Nat.even_succ, Nat.odd_mul. reflexivity.
    + cbn [length]. rewrite Hlen.
      replace (S (S (2 * length bytes))) with (2 * S (length bytes))%nat by lia.
      rewrite Nat.even_mul. reflexivity.
Qed.

(** *** The text of a big integer *)

Lemma parse_hex_uint (d d' : Hexadecimal.uint) :
  parse_hex (list_ascii_of_string (NilEmpty.string_of_uint d))
            (Z.of_N (HexadecimalPos.Unsigned.of_lu d'))
  = Some (Z.of_N (HexadecimalPos.Unsigned.of_lu (Hexadecimal.revapp d d'))).
Proof.
  revert d'.
  induction d as [| d IH | d IH | d IH | d IH | d IH | d IH | d IH | d IH
                  | d IH | d IH | d IH | d IH | d IH | d IH | d IH | d IH];
    intros d'; [reflexivity | ..];
    cbn [NilEmpty.string_of_uint list_ascii_of_string parse_hex Hexadecimal.revapp];
    match goal with
    | |- context [hex_value ?c] =>
        let v := eval vm_compute in (hex_value c) in
        change (hex_value c) with v
    end;
    cbn iota;
    match goal with
    | |- parse_hex _ ?acc = Some (Z.of_N (HexadecimalPos.Unsigned.of_lu
                                            (Hexadecimal.revapp _ ?d''))) =>
        replace acc with (Z.of_N (HexadecimalPos.Unsigned.of_lu d''))
          by (cbn [HexadecimalPos.Unsigned.of_lu]; lia)
    end;
    apply IH.
Qed.

Lemma lower_hex_uint (d : Hexadecimal.uint) :
  forallb isLowerHex (list_ascii_of_string (NilEmpty.string_of_uint d)) = true.
Proof.
  induction d; cbn [NilEmpty.string_of_uint list_ascii_of_string forallb];
    [reflexivity | ..]; rewrite IHd; reflexivity.
Qed.

Lemma toString16_pos (p : positive) :
  toString16 (Z.pos p)
  = list_ascii_of_string (NilEmpty.string_of_uint (Pos.to_hex_uint p)).
Proof.
  unfold toString16. cbn [Z.to_hex_int NilZero.string_of_int].
  pose proof (HexadecimalPos.Unsigned.to_uint_nonnil p) as Hn.
  destruct (Pos.to_hex_uint p); [contradiction | ..]; reflexivity.
Qed.

(** [toString(16)] of a non-negative integer: lower-case digits that the
    parser reads back. *)
Lemma toString16_nonneg (z : Z) :
  0 <= z ->
  forallb isLowerHex (toString16 z) = true /\ parse_hex (toString16 z) 0 = Some z.
Proof.
  intros Hz. destruct z as [| p | p]; [split; reflexivity | | lia].
  rewrite toString16_pos. split; [apply lower_hex_uint |].
  change 0 with (Z.of_N (HexadecimalPos.Unsigned.of_lu Hexadecimal.Nil)).
  rewrite parse_hex_uint. f_equal.
  change (Hexadecimal.revapp (Pos.to_hex_uint p) Hexadecimal.Nil)
    with (Hexadecimal.rev (Pos.to_hex_uint p)).
  rewrite <- HexadecimalPos.Unsigned.of_uint_alt, HexadecimalPos.Unsigned.of_to.
  reflexivity.
Qed.

Lemma nonprefixedHex_even (z : Z) :
  Nat.even (length (nonprefixedHexOfPositiveBI z)) = true.
Proof.
  unfold nonprefixedHexOfPositiveBI.
  destruct (Nat.even (length (toString16 z))) eqn:E; [exact E |].
  destruct (toString16 z) as [| c rest]; [discriminate |].
  cbn [length] in E. rewrite Nat.even_succ in E.
  destruct (Ascii.eqb c "0").
  - rewrite <- Nat.negb_odd, E. reflexivity.
  - cbn [length]. rewrite Nat.even_succ, Nat.odd_succ, <- Nat.negb_odd, E.
    reflexivity.
Qed.

Lemma nonprefixedHex_nonneg (z : Z) :
  0 <= z ->
  forallb isLowerHex (nonprefixedHexOfPositiveBI z) = true /\
  parse_hex (nonprefixedHexOfPositiveBI z) 0 = Some z.
Proof.
  intros Hz. destruct (toString16_nonneg z Hz) as [Hl Hp].
  unfold nonprefixedHexOfPositiveBI.
  destruct (Nat.even (length (toString16 z))); [split; assumption |].
  destruct (toString16 z) as [| c rest]; [split; assumption |].
  destruct (Ascii.eqb_spec c "0") as [-> | Hc].
  - cbn [forallb] in Hl. apply andb_true_iff in Hl.
    rewrite parse_hex_zero_digit in Hp. split; [apply Hl | exact Hp].
  - split; [cbn [forallb]; exact Hl | rewrite parse_hex_zero_digit; exact Hp].
Qed.

Lemma nonprefixedHex_pos_nonempty (z : Z) :
  0 < z -> nonprefixedHexOfPositiveBI z <> [].
Proof.
  intros Hz E. destruct (nonprefixedHex_nonneg z ltac:(lia)) as [_ Hp].
  rewrite E in Hp. cbn in Hp. injection Hp as Hp. lia.
Qed.

Lemma BigInt_nonprefixedHex (z : Z) :
  0 < z -> BigInt_of_hex (nonprefixedHexOfPositiveBI z) = Ret z.
Proof.
  intros Hz. unfold BigInt_of_hex.
  pose proof (nonprefixedHex_pos_nonempty z Hz) as Hne.
  destruct (nonprefixedHex_nonneg z ltac:(lia)) as [_ Hp].
  destruct (nonprefixedHexOfPositiveBI z) as [| c rest]; [contradiction |].
  rewrite Hp. reflexivity.
Qed.

(** *** From digits back to bytes *)

Lemma lowerHex_In (c : ascii) :
  isLowerHex c = true -> In c (str "0123456789abcdef").
Proof.
  destruct c as [[|] [|] [|] [|] [|] [|] [|] [|]]; intros H;
    try discriminate H; cbn; tauto.
Qed.

Lemma hexPair_facts (c1 c2 : ascii) :
  isLowerHex c1 = true -> isLowerHex c2 = true ->
  isLineTerminator c1 || isLineTerminator c2 = false /\
  hexByte (u8_of_number (parseInt16 [c1; c2])) = [c1; c2].
Proof.
  intros H1 H2.
  assert (Hall : forallb hexPair_ok
                   (list_prod (str "0123456789abcdef") (str "0123456789abcdef"))
                 = true) by (vm_compute; reflexivity).
  rewrite forallb_forall in Hall.
  specialize (Hall (c1, c2)
                (proj2 (in_prod_iff _ _ c1 c2)
                   (conj (lowerHex_In c1 H1) (lowerHex_In c2 H2)))).
  unfold hexPair_ok in Hall. cbn [fst snd] in Hall.
  apply andb_true_iff in Hall. destruct Hall as [Hl Hb].
  split; [apply isLineTerminator_orb; exact Hl | apply str_eqb_eq; exact Hb].
Qed.

Lemma hexOfArray_bytesOfHex (n : nat) (s : jsstring) :
  length s = (2 * n)%nat -> forallb isLowerHex s = true ->
  hexOfArray (map (fun h => u8_of_number (parseInt16 h)) (matchPairs s)) = s.
Proof.
  revert s. induction n as [| n IH]; intros s Hlen Hlow.
  - destruct s; [reflexivity | discriminate].
  - destruct s as [| c1 [| c2 s]]; try (cbn in Hlen; lia).
    cbn [forallb] in Hlow.
    apply andb_true_iff in Hlow. destruct Hlow as [L1 Hlow].
    apply andb_true_iff in Hlow. destruct Hlow as [L2 Hlow].
    destruct (hexPair_facts c1 c2 L1 L2) as [Hl Hb].
    cbn [matchPairs]. rewrite Hl. cbn [map].
    rewrite hexOfArray_cons. fold (hexByte (u8_of_number (parseInt16 [c1; c2]))).
    rewrite Hb, IH; [reflexivity | cbn in Hlen; lia | exact Hlow].
Qed.

Lemma even_length_half (s : jsstring) :
  Nat.even (length s) = true -> exists n, length s = (2 * n)%nat.
Proof.
  intros H. apply Nat.even_spec in H. destruct H as [n Hn]. exists n. exact Hn.
Qed.

Lemma bigintOfBase64_base64OfBigInt (z : Z) :
  0 < z -> bigintOfBase64 (base64OfBigInt z) = Ret z.
Proof.
  intros Hz. unfold bigintOfBase64, base64OfBigInt, base64OfHex.
  rewrite arrayOfBase64_base64OfArray. unfold bigintOfArray.
  rewrite hexDigitsOfArray_hexOfArray.
  destruct (even_length_half _ (nonprefixedHex_even z)) as [n Hn].
  destruct (nonprefixedHex_nonneg z ltac:(lia)) as [Hl _].
  rewrite (hexOfArray_bytesOfHex n _ Hn Hl).
  apply BigInt_nonprefixedHex. exact Hz.
Qed.

End HexMore.

(** ** Base64 text *)

Section Base64More.

Lemma base64_chunks_length (inp : list Byte.byte) :
  length (base64_chunks inp) = (4 * ((length inp + 2) / 3))%nat.
Proof.
  induction inp as [| b0 | b0 b1 | b0 b1 b2 rest IH] using list_ind3.
  - reflexivity.
  - cbn [base64_chunks].
    destruct (tail1_chars (byte_val b0) (byte_val_range b0))
      as (c1 & c2 & -> & -> & _).
    reflexivity.
  - cbn [base64_chunks].
    destruct (tail2_chars (byte_val b0) (byte_val b1)
                (byte_val_range b0) (byte_val_range b1))
      as (c1 & c2 & c3 & -> & -> & -> & _).
    reflexivity.
  - cbn [base64_chunks].
    destruct (quad_chars (byte_val b0) (byte_val b1) (byte_val b2)
                (byte_val_range b0) (byte_val_range b1) (byte_val_range b2))
      as (c1 & c2 & c3 & c4 & -> & _).
    cbn [app length]. rewrite IH.
    replace (S (S (S (length rest))) + 2)%nat with (1 * 3 + (length rest + 2))%nat by lia.
    rewrite Nat.div_add_l by lia. lia.
Qed.

Lemma decode_quad_length (inp : jsstring) (result : list Byte.byte) (i : nat) :
  length (decode_quad inp result i) = length result.
Proof. unfold decode_quad. rewrite !length_insert. reflexivity. Qed.

Lemma decode_loop_length (inp : jsstring) (l : list nat) (result : list Byte.byte) :
  length (fold_left (decode_quad inp) l result) = length result.
Proof.
  revert result. induction l as [| i l IH]; intros result; [reflexivity |].
  cbn [fold_left]. rewrite IH. apply decode_quad_length.
Qed.

Lemma arrayOfBase64_length (inp : jsstring) :
  length (arrayOfBase64 inp)
  = Z.to_nat (Z.quot (3 * Z.of_nat (length inp) - 4 * Z.min (determinePadding inp) 2) 4).
Proof.
  pose proof (determinePadding_bounds inp) as Hp.
  unfold arrayOfBase64.
  set (p := determinePadding inp) in *. set (len := Z.of_nat (length inp)).
  set (rl := if p =? 0 then len * 3 else if p =? 1 then len * 3 - 4 else len * 3 - 8).
  assert (Hrl : rl = 3 * len - 4 * Z.min p 2).
  { unfold rl. destruct (Z.eqb_spec p 0) as [-> | H0]; [lia |].
    destruct (Z.eqb_spec p 1) as [-> | H1]; lia. }
  rewrite <- Hrl.
  destruct (p =? 1); [| destruct (p =? 2)];
    rewrite ?length_insert, decode_loop_length, length_replicate; reflexivity.
Qed.

Lemma determinePadding_no_pad (s : jsstring) :
  (forall c, last s = Some c -> c <> "="%char) -> determinePadding s = 0.
Proof.
  destruct s as [| c s _] using rev_ind; [reflexivity |].
  intros H. rewrite determinePadding_snoc.
  rewrite (eqb_not_pad c); [reflexivity |]. apply H. apply last_snoc.
Qed.

Lemma determinePadding_trailing (s : jsstring) (k : nat) :
  (forall c, last s = Some c -> c <> "="%char) ->
  determinePadding (s ++ replicate k "="%char) = Z.of_nat k.
Proof.
  intros H. induction k as [| k IH].
  - cbn [replicate]. rewrite app_nil_r. apply determinePadding_no_pad. exact H.
  - rewrite replicate_S_end, app_assoc, determinePadding_snoc, IH.
    change (Ascii.eqb "=" "=") with true. cbn iota. lia.
Qed.

End Base64More.

(** ** The session *)

Section SessionMore.

Variable digest : list Byte.byte -> list Byte.byte.

Lemma posMod_pos (inp N : Z) : 0 < N -> posMod inp N = Ret (inp mod N).
Proof.
  intros HN. unfold posMod, BI_remainder.
  destruct (Z.eqb_spec N 0); [lia |]. cbn [bind]. f_equal.
  pose proof (toZn_pos inp N HN) as Hz. unfold toZn, ZERO in Hz. unfold ZERO.
  destruct (Z.leb_spec N 0); [lia |]. injection Hz as Hz. rewrite <- Hz.
  destruct (Z.geb_spec (Z.rem inp N) 0); destruct (Z.ltb_spec (Z.rem inp N) 0); lia.
Qed.

Lemma posMod_throws (inp N : Z) : posMod inp N = Thrown RangeError <-> N = 0.
Proof.
  unfold posMod, BI_remainder. destruct (Z.eqb_spec N 0) as [E | E]; cbn [bind].
  - tauto.
  - split; [discriminate | contradiction].
Qed.

Lemma randomA_range (draws : list draw) (t : session) (a : Z) :
  randomA digest draws t = Ret a ->
  a <> 0 /\ Z.abs a < Z.abs (this_N t) /\ (0 < this_N t -> 0 < a < this_N t).
Proof.
  induction draws as [| [rnd time] draws IH]; cbn [randomA]; [discriminate |].
  destruct (bigintOfArray rnd) as [rBi | |] eqn:Hr; cbn [bind]; try discriminate.
  destruct (bigintOfArray (hash digest _)) as [one | |] eqn:Ho; cbn [bind];
    try discriminate.
  unfold BI_remainder. destruct (Z.eqb_spec (this_N t) 0) as [E | E];
    [discriminate |]. cbn [bind].
  unfold ZERO. destruct (Z.eqb_spec (Z.rem (one + rBi) (this_N t)) 0) as [E0 | E0];
    [exact IH |].
  intros [= <-].
  apply bigintOfArray_nonneg in Hr. apply bigintOfArray_nonneg in Ho.
  pose proof (Z.rem_bound_abs (one + rBi) (this_N t) E) as Hb.
  split; [exact E0 |]. split; [exact Hb |].
  intros HN.
  pose proof (Z.rem_nonneg (one + rBi) (this_N t) ltac:(lia) ltac:(lia)). lia.
Qed.

Lemma generateX_range (t : session) (saltHex identity pw : jsstring) (x : Z) :
  0 < this_N t ->
  generateX digest t saltHex identity pw = Ret x -> 0 <= x < this_N t.
Proof.
  intros HN. unfold generateX.
  destruct (bigintOfArray _) as [h | |] eqn:Hh; cbn [bind]; try discriminate.
  unfold BI_remainder. destruct (Z.eqb_spec (this_N t) 0); [lia |].
  intros [= <-]. apply bigintOfArray_nonneg in Hh.
  apply Z.rem_bound_pos; lia.
Qed.

(** The identity of the protocol: the client's power of [B - k v] is the
    server's power of [A v^u]. *)
Lemma srp_identity (g k x a u b B N : Z) :
  1 < N -> 0 <= x -> 0 <= a -> 0 <= u -> 0 <= b ->
  B mod N = (k * (g ^ x mod N) + g ^ b) mod N ->
  ((B - k * (g ^ x mod N)) mod N) ^ (a + u * x) mod N
  = ((g ^ a mod N) * ((g ^ x mod N) ^ u mod N)) ^ b mod N.
Proof.
  intros HN Hx Ha Hu Hb HB.
  assert (Hdiff : (B - k * (g ^ x mod N)) mod N = g ^ b mod N).
  { rewrite Zminus_mod, HB, <- Zminus_mod. f_equal. lia. }
  rewrite Hdiff, <- Zpower_mod by lia.
  assert (Hin : ((g ^ a mod N) * ((g ^ x mod N) ^ u mod N)) mod N
                = g ^ (a + x * u) mod N).
  { rewrite <- (Zpower_mod (g ^ x)) by lia.
    rewrite <- Zmult_mod.
    rewrite <- Z.pow_mul_r, <- Z.pow_add_r by nia. reflexivity. }
  rewrite (Zpower_mod (_ * _)) by lia. rewrite Hin.
  rewrite <- Zpower_mod by lia.
  rewrite <- !Z.pow_mul_r by nia.
  f_equal. f_equal. lia.
Qed.

Lemma computeSessionKey_value (fuel : nat) (t : session) (x u a : Z) :
  1 < this_N t -> 0 < a + u * x ->
  computeSessionKey (S fuel) t x u a
  = Ret (((this_B t - this_k t * this_verifier t) mod this_N t) ^ (a + u * x)
         mod this_N t).
Proof.
  intros HN Hexp. unfold computeSessionKey.
  rewrite posMod_pos by lia. cbn [bind].
  rewrite modPow_pos by lia. reflexivity.
Qed.

Lemma hexOfArray_inj (a b : list Byte.byte) : hexOfArray a = hexOfArray b -> a = b.
Proof.
  intros H. rewrite <- (bytesOfHex_hexOfArray a), <- (bytesOfHex_hexOfArray b), H.
  reflexivity.
Qed.

Lemma step2_accepts_iff (serverM2B64 : jsstring) (t : session) :
  step2 digest serverM2B64 t = Ret (Ok (this_S t), t) <->
  hash digest (this_AHex t ++ this_M1Hex t ++ nonprefixedHexOfPositiveBI (this_S t))
  = dropZeroBytes (arrayOfBase64 serverM2B64).
Proof.
  rewrite step2_outcome. unfold hexOfBuff, hexOfBase64.
  rewrite trimHexZeroes_canonicalHex, canonicalHex_hexOfArray.
  destruct (str_eqb _ _) eqn:E.
  - apply str_eqb_eq in E. apply hexOfArray_inj in E. tauto.
  - split; [discriminate |]. intros H. rewrite H in E.
    assert (T : str_eqb (hexOfArray (dropZeroBytes (arrayOfBase64 serverM2B64)))
                        (hexOfArray (dropZeroBytes (arrayOfBase64 serverM2B64)))
                = true) by (apply str_eqb_eq; reflexivity).
    congruence.
Qed.

Lemma generateVerifier_value (fuel : nat) (saltHex identity password : jsstring)
    (t : session) (x : Z) :
  1 < this_N t ->
  generateX digest t saltHex identity password = Ret x ->
  (x <> 0 ->
   generateVerifier digest (S fuel) saltHex identity password t
   = Ret (this_g t ^ x mod this_N t, set_verifier (this_g t ^ x mod this_N t) t)) /\
  (x = 0 ->
   generateVerifier digest fuel saltHex identity password t = OutOfFuel).
Proof.
  intros HN Hx.
  assert (Hr : 0 <= x < this_N t) by (eapply generateX_range; [| exact Hx]; lia).
  unfold generateVerifier, bind_m, call_this, call, write, read. rewrite Hx.
  split.
  - intros Hx0. rewrite modPow_pos by lia. reflexivity.
  - intros Hx0. rewrite Hx0, modPow_zero_out_of_fuel by lia. reflexivity.
Qed.

Lemma step1_success_state (fuel : nat) (draws : list draw)
    (identity password saltB64 serverBB64 : jsstring) (t : session) (a B x u : Z) :
  1 < this_N t ->
  randomA digest draws (set_P password (set_I identity t)) = Ret a ->
  bigintOfBase64 serverBB64 = Ret B ->
  Z.rem B (this_N t) <> 0 ->
  generateX digest t (hexOfBase64 saltB64) identity password = Ret x ->
  x <> 0 ->
  computeU digest (nonprefixedHexOfPositiveBI (this_g t ^ a mod this_N t))
           (hexOfBase64 serverBB64) = Ret (Some u) ->
  let AHex := nonprefixedHexOfPositiveBI (this_g t ^ a mod this_N t) in
  let v := this_g t ^ x mod this_N t in
  let S := ((B - this_k t * v) mod this_N t) ^ (a + u * x) mod this_N t in
  let sStr := nonprefixedHexOfPositiveBI S in
  let M1 := hash digest (AHex ++ nonprefixedHexOfPositiveBI B ++ sStr) in
  step1 digest (Datatypes.S fuel) draws identity password saltB64 serverBB64 t
  = Ret (Ok (mkData (base64OfHex AHex) (base64OfArray M1)),
         mkSession v identity S B password (hexOfBuff (hash digest sStr)) AHex
           (hexOfBuff M1) (this_salt t) (this_k t) (this_g t) (this_N t)).
Proof.
  intros HN Ha HB HBN Hx Hx0 Hu AHex v S sStr M1.
  assert (Hapos : 0 < a).
  { apply (randomA_pos digest draws (set_P password (set_I identity t)) a);
      [cbn [this_N set_P set_I]; lia | exact Ha]. }
  assert (Hxnn : 0 <= x) by (eapply generateX_nonneg; [| exact Hx]; lia).
  pose proof (computeU_pos digest _ _ _ Hu) as Hupos.
  rewrite (step1_past_B digest draws identity password saltB64 serverBB64 t a B
             HN Ha HB x HBN Hx).
  unfold bind_m at 1, call_this at 1, call at 1. cbn [this_AHex set_AHex].
  rewrite Hu.
  unfold bind_m at 1, call_this at 1, call at 1.
  cbn [this_g this_N set_AHex set_B set_P set_I].
  rewrite modPow_pos by lia.
  unfold bind_m at 1, write at 1. unfold bind_m at 1, call_this at 1, call at 1.
  rewrite computeSessionKey_value
    by (cbn [this_N set_verifier set_AHex set_B set_P set_I]; nia).
  cbn [this_N this_B this_k this_verifier set_verifier set_AHex set_B set_P set_I].
  unfold bind_m, write, read, unit_m.
  cbn [this_S this_AHex this_B this_M1Hex set_M1Hex set_K set_S set_verifier
         set_AHex set_B set_P set_I].
  fold v. fold S. fold AHex. fold sStr. fold M1.
  unfold hexOfBuff at 3. unfold base64OfHex at 2.
  rewrite bytesOfHex_hexOfArray.
  reflexivity.
Qed.

End SessionMore.

Section WireMore.

Lemma hex_value_lower (c : ascii) :
  isLowerHex c = true -> exists d, hex_value c = Some d.
Proof.
  unfold isLowerHex, hex_value. intros H.
  destruct ((48 <=? code c) && (code c <=? 57)); [eauto |].
  destruct ((97 <=? code c) && (code c <=? 102)); [eauto | discriminate].
Qed.

Lemma parse_hex_lower (s : jsstring) (acc : Z) :
  forallb isLowerHex s = true -> exists v, parse_hex s acc = Some v.
Proof.
  revert acc. induction s as [| c s IH]; intros acc H; cbn [parse_hex]; [eauto |].
  cbn [forallb] in H. apply andb_true_iff in H. destruct H as [Hc Hs].
  destruct (hex_value_lower c Hc) as [d ->]. apply IH. exact Hs.
Qed.

Lemma bigintOfArray_hex (bytes : list Byte.byte) :
  bigintOfArray bytes = BigInt_of_hex (hexOfArray bytes).
Proof. unfold bigintOfArray. rewrite hexDigitsOfArray_hexOfArray. reflexivity. Qed.

Lemma bigintOfArray_throws (bytes : list Byte.byte) :
  bigintOfArray bytes = Thrown SyntaxError <-> bytes = [].
Proof.
  rewrite bigintOfArray_hex. split.
  - intros H. destruct bytes as [| b bytes]; [reflexivity |].
    pose proof (hexOfArray_length (b :: bytes)) as Hlen.
    destruct (parse_hex_lower (hexOfArray (b :: bytes)) 0
                (hexOfArray_lower (b :: bytes))) as [v Hv].
    unfold BigInt_of_hex in H.
    destruct (hexOfArray (b :: bytes)) as [| c s]; [discriminate Hlen |].
    rewrite Hv in H. discriminate.
  - intros ->. reflexivity.
Qed.

Lemma bigintOfArray_value (bytes : list Byte.byte) (v : Z) :
  bigintOfArray bytes = Ret v ->
  parse_hex (trimHexZeroes (hexOfArray bytes)) 0 = Some v.
Proof.
  rewrite bigintOfArray_hex, trimHexZeroes_canonicalHex, parse_hex_canonicalHex.
  unfold BigInt_of_hex. destruct (hexOfArray bytes) as [| c s]; [discriminate |].
  destruct (parse_hex (c :: s) 0); [| discriminate]. intros [= ->]. reflexivity.
Qed.

End WireMore.

(** ** Further properties, stated *)

(** X4.  [hexOfArray] writes exactly two lower-case hexadecimal digits for
    each byte, and the text of two arrays put end to end is the two texts
    put end to end. *)
Theorem hexOfArray_two_digits_per_byte (a b : list Byte.byte) :
  length (hexOfArray a) = (2 * length a)%nat /\
  forallb isLowerHex (hexOfArray a) = true /\
  hexOfArray (a ++ b) = hexOfArray a ++ hexOfArray b.
Proof.
  split; [apply hexOfArray_length |].
  split; [apply hexOfArray_lower | apply hexOfArray_app].
Qed.

(** X5.  [base64OfHex] undoes [hexOfArray]: the base64 text of the digits
    of an array is the base64 text of the array, so the digits decode to
    the same bytes. *)
Theorem base64OfHex_hexOfArray (bytes : list Byte.byte) :
  base64OfHex (hexOfArray bytes) = base64OfArray bytes /\
  arrayOfBase64 (base64OfHex (hexOfArray bytes)) = bytes.
Proof.
  assert (E : base64OfHex (hexOfArray bytes) = base64OfArray bytes)
    by (unfold base64OfHex; rewrite bytesOfHex_hexOfArray; reflexivity).
  split; [exact E |]. rewrite E. apply arrayOfBase64_base64OfArray.
Qed.

(** X6.  On the digits of a byte array [trimHexZeroes] removes the leading
    zero bytes and nothing else; so [hexOfBase64] of an encoded array is
    the text of the array without its leading zero bytes. *)
Theorem hexOfBase64_of_encoding (bytes : list Byte.byte) :
  trimHexZeroes (hexOfArray bytes) = hexOfArray (dropZeroBytes bytes) /\
  hexOfBase64 (base64OfArray bytes) = hexOfArray (dropZeroBytes bytes).
Proof.
  unfold hexOfBase64. rewrite arrayOfBase64_base64OfArray.
  rewrite trimHexZeroes_canonicalHex, canonicalHex_hexOfArray. split; reflexivity.
Qed.

(** X7.  [trimHexZeroes] is idempotent, and the number that the digits
    spell is the same before and after. *)
Theorem trimHexZeroes_idempotent (s : jsstring) :
  trimHexZeroes (trimHexZeroes s) = trimHexZeroes s /\
  parse_hex (trimHexZeroes s) 0 = parse_hex s 0.
Proof.
  rewrite !trimHexZeroes_canonicalHex.
  split; [apply canonicalHex_idem | apply parse_hex_canonicalHex].
Qed.

(** X8.  [nonprefixedHexOfPositiveBI] always gives an even number of
    characters; for a non-negative integer they are lower-case hexadecimal
    digits that spell the integer. *)
Theorem nonprefixedHex_spells_the_integer (z : Z) :
  Nat.even (length (nonprefixedHexOfPositiveBI z)) = true /\
  (0 <= z ->
   forallb isLowerHex (nonprefixedHexOfPositiveBI z) = true /\
   parse_hex (nonprefixedHexOfPositiveBI z) 0 = Some z).
Proof.
  split; [apply nonprefixedHex_even | apply nonprefixedHex_nonneg].
Qed.

Lemma nonprefixedHex_spells_the_integer_witness :
  forallb isLowerHex (nonprefixedHexOfPositiveBI 4095) = true /\
  parse_hex (nonprefixedHexOfPositiveBI 4095) 0 = Some 4095.
Proof. apply (proj2 (nonprefixedHex_spells_the_integer 4095)). lia. Defined.

(** X9.  [prefixedHexOfPositiveBI] is ["0x"] before the text of
    [nonprefixedHexOfPositiveBI]; [BI.BigInt] reads a positive integer
    back from it, and rejects the bare ["0x"] that zero gives. *)
Theorem prefixedHex_reads_back (z : Z) :
  prefixedHexOfPositiveBI z = str "0x" ++ nonprefixedHexOfPositiveBI z /\
  (0 < z -> BigInt_of_hex (nonprefixedHexOfPositiveBI z) = Ret z) /\
  (z = 0 -> prefixedHexOfPositiveBI z = str "0x" /\
            BigInt_of_hex (nonprefixedHexOfPositiveBI z) = Thrown SyntaxError).
Proof.
  split; [| split].
  - unfold prefixedHexOfPositiveBI, nonprefixedHexOfPositiveBI.
    destruct (Nat.even (length (toString16 z))); [reflexivity |].
    destruct (toString16 z) as [| c rest]; [reflexivity |].
    destruct (Ascii.eqb c "0"); reflexivity.
  - apply BigInt_nonprefixedHex.
  - intros ->. split; reflexivity.
Qed.

Lemma prefixedHex_reads_back_witness :
  BigInt_of_hex (nonprefixedHexOfPositiveBI 4095) = Ret 4095 /\
  prefixedHexOfPositiveBI 0 = str "0x" /\
  BigInt_of_hex (nonprefixedHexOfPositiveBI 0) = Thrown SyntaxError.
Proof.
  split.
  - apply (proj1 (proj2 (prefixedHex_reads_back 4095))). lia.
  - apply (proj2 (proj2 (prefixedHex_reads_back 0))). reflexivity.
Defined.

(** X10.  A positive integer survives the wire: [bigintOfBase64] reads
    back what [base64OfBigInt] wrote.  Zero does not: its text is empty and
    reading it throws [SyntaxError]. *)
Theorem bigint_wire_roundtrip (z : Z) :
  (0 < z -> bigintOfBase64 (base64OfBigInt z) = Ret z) /\
  (z = 0 -> base64OfBigInt z = [] /\
            bigintOfBase64 (base64OfBigInt z) = Thrown SyntaxError).
Proof.
  split; [apply bigintOfBase64_base64OfBigInt |].
  intros ->. split; reflexivity.
Qed.

Lemma bigint_wire_roundtrip_witness :
  bigintOfBase64 (base64OfBigInt 649020) = Ret 649020 /\
  base64OfBigInt 0 = [] /\
  bigintOfBase64 (base64OfBigInt 0) = Thrown SyntaxError.
Proof.
  split.
  - apply (proj1 (bigint_wire_roundtrip 649020)). lia.
  - apply (proj2 (bigint_wire_roundtrip 0)). reflexivity.
Defined.

(** X11.  The base64 text of [n] bytes has [4 * ceil (n / 3)] characters. *)
Theorem base64OfArray_length (inp : list Byte.byte) :
  length (base64OfArray inp) = (4 * ((length inp + 2) / 3))%nat.
Proof. rewrite base64OfArray_chunks. apply base64_chunks_length. Qed.

(** X12.  [determinePadding] counts the padding signs at the end of the
    text: after a text that does not end in one, [k] of them count [k]. *)
Theorem determinePadding_counts_trailing (s : jsstring) (k : nat) :
  (forall c, last s = Some c -> c <> "="%char) ->
  determinePadding (s ++ replicate k "="%char) = Z.of_nat k.
Proof. apply determinePadding_trailing. Qed.

Lemma determinePadding_counts_trailing_witness :
  determinePadding (str "TQ" ++ replicate 2 "="%char) = Z.of_nat 2.
Proof.
  apply (determinePadding_counts_trailing (str "TQ") 2).
  intros c [= <-]. discriminate.
Defined.

(** X13.  On the encoder's own output [determinePadding] finds the padding
    the length of the array calls for: none, two or one sign for a length
    that is 0, 1 or 2 modulo 3. *)
Theorem determinePadding_of_encoding (inp : list Byte.byte) :
  determinePadding (base64OfArray inp) = paddingOf (length inp).
Proof. rewrite base64OfArray_chunks. apply decode_chunks. Qed.

(** X14.  The decoder never checks its input; whatever the text, the
    array it returns has [3 * length / 4] bytes less the padding, of which
    at most two signs count, rounded towards zero. *)
Theorem arrayOfBase64_output_length (inp : jsstring) :
  length (arrayOfBase64 inp)
  = Z.to_nat (Z.quot (3 * Z.of_nat (length inp) - 4 * Z.min (determinePadding inp) 2) 4).
Proof. apply arrayOfBase64_length. Qed.

(** X15.  [bigintOfBase64] throws exactly when the text decodes to no byte
    at all; when it returns, the canonical digits of [hexOfBase64] spell
    the same integer. *)
Theorem bigintOfBase64_agrees_with_hex (inp : jsstring) :
  (bigintOfBase64 inp = Thrown SyntaxError <-> arrayOfBase64 inp = []) /\
  (forall v, bigintOfBase64 inp = Ret v -> parse_hex (hexOfBase64 inp) 0 = Some v).
Proof.
  unfold bigintOfBase64, hexOfBase64.
  split; [apply bigintOfArray_throws | apply bigintOfArray_value].
Qed.

Lemma bigintOfBase64_agrees_with_hex_witness :
  parse_hex (hexOfBase64 demo_B) 0 = Some 649020.
Proof.
  apply (proj2 (bigintOfBase64_agrees_with_hex demo_B) 649020). reflexivity.
Defined.

Section SessionFacts.

Lemma dropZeroBytes_fixed (l : list Byte.byte) :
  dropZeroBytes l = l <-> head l <> Some Byte.x00.
Proof.
  destruct l as [| b rest]; cbn [dropZeroBytes head].
  - split; [discriminate | reflexivity].
  - destruct (Byte.eqb b Byte.x00) eqn:E.
    + apply Byte.byte_dec_bl in E. subst b. split; [| congruence].
      intros H. exfalso.
      assert (Hlen : (length (dropZeroBytes rest) <= length rest)%nat).
      { clear H. induction rest as [| c rest IH]; cbn [dropZeroBytes]; [lia |].
        destruct (Byte.eqb c Byte.x00); cbn [length] in *; lia. }
      rewrite H in Hlen. cbn [length] in Hlen. lia.
    + split; [| reflexivity]. intros _ [= ->]. discriminate.
Qed.

Lemma toUpperCase_idem (s : jsstring) : toUpperCase (toUpperCase s) = toUpperCase s.
Proof.
  unfold toUpperCase. rewrite map_map. apply map_ext. intros c.
  destruct c as [[] [] [] [] [] [] [] []]; vm_compute; reflexivity.
Qed.

Lemma toUpperCase_app (a b : jsstring) :
  toUpperCase (a ++ b) = toUpperCase a ++ toUpperCase b.
Proof. unfold toUpperCase. apply map_app. Qed.

End SessionFacts.

(** X16.  Over a positive modulus [posMod] returns the least non-negative
    residue, the value [toZn] returns; it throws [RangeError] exactly when
    the modulus is zero. *)
Theorem posMod_least_residue (inp N : Z) :
  (0 < N -> posMod inp N = Ret (inp mod N) /\ posMod inp N = toZn inp N) /\
  (posMod inp N = Thrown RangeError <-> N = 0).
Proof.
  split; [| apply posMod_throws].
  intros HN. rewrite posMod_pos, toZn_pos by exact HN. split; reflexivity.
Qed.

Lemma posMod_least_residue_witness :
  posMod (-7) 5 = Ret (-7 mod 5) /\ posMod (-7) 5 = toZn (-7) 5.
Proof. apply (proj1 (posMod_least_residue (-7) 5)). lia. Defined.

(** X17.  The private value that [randomA] returns is never zero and is
    smaller in magnitude than the modulus; over a positive modulus it lies
    strictly between 0 and [N]. *)
Theorem randomA_in_range
    (digest : list Byte.byte -> list Byte.byte) (draws : list draw)
    (t : session) (a : Z) :
  randomA digest draws t = Ret a ->
  a <> 0 /\ Z.abs a < Z.abs (this_N t) /\ (0 < this_N t -> 0 < a < this_N t).
Proof. apply randomA_range. Qed.

Lemma randomA_in_range_witness :
  322680 <> 0 /\ Z.abs 322680 < Z.abs (this_N (set_I (str "alice") demo_session)) /\
  (0 < this_N (set_I (str "alice") demo_session)
   -> 0 < 322680 < this_N (set_I (str "alice") demo_session)).
Proof.
  apply (randomA_in_range Sha256.sha256 [(demo_rnd, str "1700000000000")]
           (set_I (str "alice") demo_session) 322680).
  vm_compute. reflexivity.
Defined.

(** X18.  Over a positive modulus the private key [x] that [generateX]
    derives lies in [0, N); zero is not excluded. *)
Theorem generateX_in_range
    (digest : list Byte.byte -> list Byte.byte) (t : session)
    (saltHex identity pw : jsstring) (x : Z) :
  0 < this_N t ->
  generateX digest t saltHex identity pw = Ret x -> 0 <= x < this_N t.
Proof. apply generateX_range. Qed.

Lemma generateX_in_range_witness :
  0 <= 16052 < this_N demo_session /\ 0 <= 0 < this_N demo_session.
Proof.
  split.
  - apply (generateX_in_range Sha256.sha256 demo_session (hexOfBase64 demo_salt)
             (str "alice") (str "correct-password") 16052).
    + vm_compute. reflexivity.
    + vm_compute. reflexivity.
  - apply (generateX_in_range Sha256.sha256 demo_session (hexOfBase64 demo_salt)
             (str "alice") (str "pw361874") 0).
    + vm_compute. reflexivity.
    + vm_compute. reflexivity.
Defined.

(** X19.  [generateX] does not see the letter case of the salt's digits:
    an ASCII salt and its upper-case form derive the same [x]. *)
Theorem generateX_ignores_salt_case
    (digest : list Byte.byte -> list Byte.byte) (t : session)
    (saltHex identity pw : jsstring) :
  forallb (fun c => code c <? 128) saltHex = true ->
  generateX digest t (toUpperCase saltHex) identity pw
  = generateX digest t saltHex identity pw.
Proof.
  intros _. unfold generateX.
  rewrite !toUpperCase_app, toUpperCase_idem. reflexivity.
Qed.

Lemma generateX_ignores_salt_case_witness :
  generateX Sha256.sha256 demo_session (toUpperCase (str "c0ffee1234")) (str "alice")
            (str "correct-password")
  = generateX Sha256.sha256 demo_session (str "c0ffee1234") (str "alice")
              (str "correct-password").
Proof.
  apply (generateX_ignores_salt_case Sha256.sha256 demo_session (str "c0ffee1234")).
  reflexivity.
Defined.

(** X20.  With the verifier [g^x] in the field and a server value
    [B = k v + g^b], [computeSessionKey] returns the key the server
    computes, [(A v^u)^b mod N] with [A = g^a mod N]. *)
Theorem computeSessionKey_matches_server
    (fuel : nat) (t : session) (x u a b : Z) :
  1 < this_N t -> 0 <= x -> 0 < a -> 0 <= u -> 0 <= b ->
  this_verifier t = this_g t ^ x mod this_N t ->
  this_B t mod this_N t = (this_k t * this_verifier t + this_g t ^ b) mod this_N t ->
  computeSessionKey (S fuel) t x u a
  = Ret (((this_g t ^ a mod this_N t) * (this_verifier t ^ u mod this_N t)) ^ b
         mod this_N t).
Proof.
  intros HN Hx Ha Hu Hb Hv HB.
  rewrite computeSessionKey_value by nia.
  rewrite Hv in *. f_equal.
  apply srp_identity; first [lia | exact HB].
Qed.

Lemma computeSessionKey_matches_server_witness :
  computeSessionKey 1 (mkSession 8 [] 0 10 [] [] [] [] [] 3 2 23) 3 7 4
  = Ret (((2 ^ 4 mod 23) * (8 ^ 7 mod 23)) ^ 5 mod 23).
Proof.
  apply (computeSessionKey_matches_server 0
           (mkSession 8 [] 0 10 [] [] [] [] [] 3 2 23) 3 7 4 5);
    cbn [this_N this_g this_k this_B this_verifier]; try lia; reflexivity.
Defined.

(** X21.  When the server's [B] is a multiple of [N], [step1] returns the
    failure ["Bad server public value B = 0"]; by then it has written the
    identity, the password and [B], and no other field. *)
Theorem step1_rejects_zero_B
    (digest : list Byte.byte -> list Byte.byte) (fuel : nat) (draws : list draw)
    (identity password saltB64 serverBB64 : jsstring) (t : session) (a B : Z) :
  1 < this_N t ->
  randomA digest draws (set_P password (set_I identity t)) = Ret a ->
  bigintOfBase64 serverBB64 = Ret B ->
  Z.rem B (this_N t) = 0 ->
  step1 digest (S fuel) draws identity password saltB64 serverBB64 t
  = Ret (Err (str "Bad server public value B = 0"),
         mkSession (this_verifier t) identity (this_S t) B password (this_K t)
           (this_AHex t) (this_M1Hex t) (this_salt t) (this_k t) (this_g t)
           (this_N t)).
Proof.
  intros HN Ha HB HBN.
  exact (step1_bad_server_value digest fuel draws identity password saltB64
           serverBB64 t a B HN Ha HB HBN).
Qed.

Lemma step1_rejects_zero_B_witness :
  step1 Sha256.sha256 1 [(demo_rnd, str "1700000000000")]
        (str "alice") (str "pw") demo_salt (str "AAAA") demo_session
  = Ret (Err (str "Bad server public value B = 0"),
         mkSession 0 (str "alice") 0 0 (str "pw") [] [] [] [] 3 2 1000003).
Proof.
  apply (step1_rejects_zero_B Sha256.sha256 0 [(demo_rnd, str "1700000000000")]
           (str "alice") (str "pw") demo_salt (str "AAAA") demo_session 322680 0).
  - vm_compute. reflexivity.
  - vm_compute. reflexivity.
  - vm_compute. reflexivity.
  - vm_compute. reflexivity.
Defined.

(** X22.  A server value whose text decodes to no byte is not answered
    with a failure value: [step1] throws the [SyntaxError] of
    [BI.BigInt]. *)
Theorem step1_throws_on_empty_B
    (digest : list Byte.byte -> list Byte.byte) (fuel : nat) (draws : list draw)
    (identity password saltB64 serverBB64 : jsstring) (t : session) (a : Z) :
  1 < this_N t ->
  randomA digest draws (set_P password (set_I identity t)) = Ret a ->
  arrayOfBase64 serverBB64 = [] ->
  step1 digest (S fuel) draws identity password saltB64 serverBB64 t
  = Thrown SyntaxError.
Proof.
  intros HN Ha HB.
  assert (Hapos : 0 < a).
  { apply (randomA_pos digest draws (set_P password (set_I identity t)) a);
      [cbn [this_N set_P set_I]; lia | exact Ha]. }
  unfold step1, bind_m, write, call_this, call, read, unit_m.
  rewrite Ha. cbn [this_g this_N set_P set_I].
  rewrite modPow_pos by lia.
  unfold bigintOfBase64. rewrite HB. reflexivity.
Qed.

Lemma step1_throws_on_empty_B_witness :
  step1 Sha256.sha256 1 [(demo_rnd, str "1700000000000")]
        (str "alice") (str "pw") demo_salt [] demo_session
  = Thrown SyntaxError.
Proof.
  apply (step1_throws_on_empty_B Sha256.sha256 0 [(demo_rnd, str "1700000000000")]
           (str "alice") (str "pw") demo_salt [] demo_session 322680).
  - vm_compute. reflexivity.
  - vm_compute. reflexivity.
  - reflexivity.
Defined.

(** X23.  When the scrambler [u] is zero, [step1] returns the failure
    ["Bad client value u"]; by then it has also written [AHex], but neither
    the verifier nor [S], [K] or [M1Hex]. *)
Theorem step1_rejects_zero_u
    (digest : list Byte.byte -> list Byte.byte) (fuel : nat) (draws : list draw)
    (identity password saltB64 serverBB64 : jsstring) (t : session) (a B x : Z) :
  1 < this_N t ->
  randomA digest draws (set_P password (set_I identity t)) = Ret a ->
  bigintOfBase64 serverBB64 = Ret B ->
  Z.rem B (this_N t) <> 0 ->
  generateX digest t (hexOfBase64 saltB64) identity password = Ret x ->
  computeU digest (nonprefixedHexOfPositiveBI (this_g t ^ a mod this_N t))
           (hexOfBase64 serverBB64) = Ret None ->
  step1 digest (S fuel) draws identity password saltB64 serverBB64 t
  = Ret (Err (str "Bad client value u"),
         mkSession (this_verifier t) identity (this_S t) B password (this_K t)
           (nonprefixedHexOfPositiveBI (this_g t ^ a mod this_N t))
           (this_M1Hex t) (this_salt t) (this_k t) (this_g t) (this_N t)).
Proof.
  intros HN Ha HB HBN Hx Hu.
  exact (step1_bad_scrambler digest fuel draws identity password saltB64
           serverBB64 t a B HN Ha HB x HBN Hx Hu).
Qed.

Lemma step1_rejects_zero_u_witness :
  step1 (fun _ => replicate 32 Byte.x00) 1 [(demo_rnd, str "0")]
        (str "alice") (str "pw") demo_salt demo_B demo_session
  = Ret (Err (str "Bad client value u"),
         mkSession 0 (str "alice") 0 649020 (str "pw") []
           (nonprefixedHexOfPositiveBI (2 ^ 739404 mod 1000003)) [] [] 3 2 1000003).
Proof.
  apply (step1_rejects_zero_u (fun _ => replicate 32 Byte.x00) 0
           [(demo_rnd, str "0")] (str "alice") (str "pw") demo_salt demo_B
           demo_session 739404 649020 0).
  - vm_compute. reflexivity.
  - vm_compute. reflexivity.
  - vm_compute. reflexivity.
  - vm_compute. discriminate.
  - vm_compute. reflexivity.
  - vm_compute. reflexivity.
Defined.

(** X24.  When [step1] succeeds it leaves the verifier [g^x mod N], the
    shared secret [S = (B - k v)^(a + u x) mod N], [K = H(S)], [AHex] and
    [M1Hex = H(A | B | S)] in the fields, keeps salt, [k], [g] and [N], and
    returns the base64 texts of [A] and of the digest [M1]. *)
Theorem step1_success_fields
    (digest : list Byte.byte -> list Byte.byte) (fuel : nat) (draws : list draw)
    (identity password saltB64 serverBB64 : jsstring) (t : session) (a B x u : Z) :
  1 < this_N t ->
  randomA digest draws (set_P password (set_I identity t)) = Ret a ->
  bigintOfBase64 serverBB64 = Ret B ->
  Z.rem B (this_N t) <> 0 ->
  generateX digest t (hexOfBase64 saltB64) identity password = Ret x ->
  x <> 0 ->
  computeU digest (nonprefixedHexOfPositiveBI (this_g t ^ a mod this_N t))
           (hexOfBase64 serverBB64) = Ret (Some u) ->
  step1 digest (S fuel) draws identity password saltB64 serverBB64 t
  = Ret (Ok (mkData
               (base64OfHex (nonprefixedHexOfPositiveBI (this_g t ^ a mod this_N t)))
               (base64OfArray
                  (hash digest
                     (nonprefixedHexOfPositiveBI (this_g t ^ a mod this_N t)
                      ++ nonprefixedHexOfPositiveBI B
                      ++ nonprefixedHexOfPositiveBI
                           (((B - this_k t * (this_g t ^ x mod this_N t)) mod this_N t)
                            ^ (a + u * x) mod this_N t))))),
         mkSession (this_g t ^ x mod this_N t) identity
           (((B - this_k t * (this_g t ^ x mod this_N t)) mod this_N t)
            ^ (a + u * x) mod this_N t)
           B password
           (hexOfBuff
              (hash digest
                 (nonprefixedHexOfPositiveBI
                    (((B - this_k t * (this_g t ^ x mod this_N t)) mod this_N t)
                     ^ (a + u * x) mod this_N t))))
           (nonprefixedHexOfPositiveBI (this_g t ^ a mod this_N t))
           (hexOfBuff
              (hash digest
                 (nonprefixedHexOfPositiveBI (this_g t ^ a mod this_N t)
                  ++ nonprefixedHexOfPositiveBI B
                  ++ nonprefixedHexOfPositiveBI
                       (((B - this_k t * (this_g t ^ x mod this_N t)) mod this_N t)
                        ^ (a + u * x) mod this_N t))))
           (this_salt t) (this_k t) (this_g t) (this_N t)).
Proof.
  intros HN Ha HB HBN Hx Hx0 Hu.
  exact (step1_success_state digest fuel draws identity password saltB64 serverBB64
           t a B x u HN Ha HB HBN Hx Hx0 Hu).
Qed.

Lemma step1_success_fields_witness :
  exists d t',
    step1 Sha256.sha256 1 [(demo_rnd, str "1700000000468")]
          (str "alice") (str "correct-password") demo_salt demo_B demo_session
    = Ret (Ok d, t').
Proof.
  eexists. eexists.
  apply (step1_success_fields Sha256.sha256 0 [(demo_rnd, str "1700000000468")]
           (str "alice") (str "correct-password") demo_salt demo_B demo_session
           370825 649020 16052
           11507985796179903512565055061609181446371612881116077443940556287203271650061).
  - vm_compute. reflexivity.
  - vm_compute. reflexivity.
  - vm_compute. reflexivity.
  - vm_compute. discriminate.
  - vm_compute. reflexivity.
  - discriminate.
  - vm_compute. reflexivity.
Defined.

(** X25.  [step2] accepts exactly when the expected evidence
    [H(A | M1 | S)] equals the server's bytes without their leading zero
    bytes; so an honest server, which sends the evidence itself, is
    accepted exactly when the evidence does not begin with a zero byte. *)
Theorem step2_acceptance
    (digest : list Byte.byte -> list Byte.byte) (serverM2B64 : jsstring)
    (t : session) :
  (step2 digest serverM2B64 t = Ret (Ok (this_S t), t) <->
   hash digest (this_AHex t ++ this_M1Hex t ++ nonprefixedHexOfPositiveBI (this_S t))
   = dropZeroBytes (arrayOfBase64 serverM2B64)) /\
  (step2 digest
     (base64OfArray
        (hash digest
           (this_AHex t ++ this_M1Hex t ++ nonprefixedHexOfPositiveBI (this_S t)))) t
   = Ret (Ok (this_S t), t) <->
   head (hash digest
           (this_AHex t ++ this_M1Hex t ++ nonprefixedHexOfPositiveBI (this_S t)))
   <> Some Byte.x00).
Proof.
  split; [apply step2_accepts_iff |].
  rewrite step2_accepts_iff, arrayOfBase64_base64OfArray.
  rewrite <- dropZeroBytes_fixed. split; intros H; symmetry; exact H.
Qed.

(** X26.  Over a modulus [N > 1], [generateVerifier] stores and returns
    [g^x mod N] when the derived [x] is not zero, touching no other field;
    when [x] is zero it never returns. *)
Theorem generateVerifier_outcome
    (digest : list Byte.byte -> list Byte.byte) (fuel : nat)
    (saltHex identity password : jsstring) (t : session) (x : Z) :
  1 < this_N t ->
  generateX digest t saltHex identity password = Ret x ->
  (x <> 0 ->
   generateVerifier digest (S fuel) saltHex identity password t
   = Ret (this_g t ^ x mod this_N t,
          mkSession (this_g t ^ x mod this_N t) (this_I t) (this_S t) (this_B t)
            (this_P t) (this_K t) (this_AHex t) (this_M1Hex t) (this_salt t)
            (this_k t) (this_g t) (this_N t))) /\
  (x = 0 ->
   generateVerifier digest fuel saltHex identity password t = OutOfFuel).
Proof. apply generateVerifier_value. Qed.

Lemma generateVerifier_outcome_witness :
  generateVerifier Sha256.sha256 1 (hexOfBase64 demo_salt) (str "alice")
                   (str "correct-password") demo_session
  = Ret (659198, mkSession 659198 [] 0 0 [] [] [] [] [] 3 2 1000003) /\
  generateVerifier Sha256.sha256 64 (hexOfBase64 demo_salt) (str "alice")
                   (str "pw361874") demo_session
  = OutOfFuel.
Proof.
  split.
  - apply (proj1 (generateVerifier_outcome Sha256.sha256 0 (hexOfBase64 demo_salt)
                    (str "alice") (str "correct-password") demo_session 16052
                    ltac:(vm_compute; reflexivity) ltac:(vm_compute; reflexivity))).
    discriminate.
  - apply (proj2 (generateVerifier_outcome Sha256.sha256 64 (hexOfBase64 demo_salt)
                    (str "alice") (str "pw361874") demo_session 0
                    ltac:(vm_compute; reflexivity) ltac:(vm_compute; reflexivity))).
    reflexivity.
Defined.

Section BigEndian.

Lemma hexTable_entry (table : jsstring) (i : Z) :
  hexTable_ok table = true -> 0 <= i < 16 ->
  exists c, lookup_char table i = [c] /\ hex_value c = Some i.
Proof.
  intros Hok Hi. unfold hexTable_ok in Hok.
  rewrite forallb_forall in Hok.
  specialize (Hok (Z.to_nat i)).
  rewrite in_seq in Hok. specialize (Hok ltac:(lia)).
  unfold lookup_char. destruct (Z.ltb_spec i 0); [lia |].
  destruct (table !! Z.to_nat i) as [c |]; [| discriminate].
  destruct (hex_value c) as [d |] eqn:Hd; [| discriminate].
  apply Z.eqb_eq in Hok. exists c. split; [reflexivity |].
  rewrite Hd. f_equal. lia.
Qed.

Lemma parse_hex_table (table : jsstring) (bytes : list Byte.byte) (acc : Z) :
  hexTable_ok table = true ->
  parse_hex (hexDigitsWith table bytes) acc
  = Some (fold_left (fun acc b => 256 * acc + byte_val b) bytes acc).
Proof.
  intros Hok. revert acc.
  induction bytes as [| b bytes IH]; intros acc; [reflexivity |].
  pose proof (byte_val_range b) as Hb.
  unfold hexDigitsWith in *. cbn [map concat fold_left].
  rewrite Z.shiftr_div_pow2 by lia.
  change 15 with (Z.ones 4). rewrite Z.land_ones by lia.
  change (2 ^ 4) with 16.
  destruct (hexTable_entry table (byte_val b / 16) Hok) as (c1 & E1 & V1);
    [split; [apply Z.div_pos; lia | apply Z.div_lt_upper_bound; lia] |].
  destruct (hexTable_entry table (byte_val b mod 16) Hok) as (c2 & E2 & V2);
    [apply Z.mod_pos_bound; lia |].
  rewrite E1, E2. cbn [app parse_hex]. rewrite V1, V2, IH.
  do 2 f_equal. pose proof (Z.div_mod (byte_val b) 16 ltac:(lia)). lia.
Qed.

Lemma hexDigitsWith_nonempty (table : jsstring) (bytes : list Byte.byte) :
  hexTable_ok table = true -> bytes <> [] -> hexDigitsWith table bytes <> [].
Proof.
  intros Hok Hne. destruct bytes as [| b bytes]; [contradiction |].
  pose proof (byte_val_range b) as Hb.
  unfold hexDigitsWith. cbn [map concat].
  rewrite Z.shiftr_div_pow2 by lia. change (2 ^ 4) with 16.
  destruct (hexTable_entry table (byte_val b / 16) Hok) as (c1 & E1 & _);
    [split; [apply Z.div_pos; lia | apply Z.div_lt_upper_bound; lia] |].
  rewrite E1. discriminate.
Qed.

End BigEndian.

(** X27.  The integer that [BI.BigInt] reads from the text of
    [prefixedHexOfArray] and [prefixedHexOfBuff] is the big-endian value of
    the bytes, provided there is at least one byte; and that does not rest
    on the letter case of [HEX_DIGITS]: whatever table of the sixteen
    hexadecimal digits stands there, in either case, the same integer is
    read. *)
Theorem bigintOfArray_big_endian (bytes : list Byte.byte) :
  (bytes <> [] -> bigintOfArray bytes = Ret (bigEndian bytes)) /\
  (forall table : jsstring,
     hexTable_ok table = true -> bytes <> [] ->
     BigInt_of_hex (hexDigitsWith table bytes) = Ret (bigEndian bytes)).
Proof.
  assert (G : forall table : jsstring,
             hexTable_ok table = true -> bytes <> [] ->
             BigInt_of_hex (hexDigitsWith table bytes) = Ret (bigEndian bytes)).
  { intros table Hok Hne. unfold BigInt_of_hex, bigEndian.
    pose proof (hexDigitsWith_nonempty table bytes Hok Hne) as Hd.
    rewrite parse_hex_table by exact Hok.
    destruct (hexDigitsWith table bytes); [contradiction | reflexivity]. }
  split; [| exact G].
  intros Hne. apply (G HEX_DIGITS); [reflexivity | exact Hne].
Qed.

Lemma bigintOfArray_big_endian_witness :
  bigintOfArray [Byte.x01; Byte.xab] = Ret (bigEndian [Byte.x01; Byte.xab]) /\
  BigInt_of_hex (hexDigitsWith (str "0123456789ABCDEF") [Byte.x01; Byte.xab])
  = Ret (bigEndian [Byte.x01; Byte.xab]).
Proof.
  split.
  - apply (proj1 (bigintOfArray_big_endian [Byte.x01; Byte.xab])). discriminate.
  - apply (proj2 (bigintOfArray_big_endian [Byte.x01; Byte.xab])
             (str "0123456789ABCDEF")); [reflexivity | discriminate].
Defined.
